(** * Process scheduler: FCFS, SJF and Priority simulations of [main.go]

    A shallow embedding of the three scheduling routines of [main.go]
    ([FCFSSchedule], [SJFSchedule], [SJFPrioritySchedule]), of the heap
    they use ([IntHeap] driven by Go's [container/heap]) and of the way
    [main] passes one process slice through all of them, of
    [loadProcesses] and of [outputGantt], followed by the properties of
    the specification that can be settled on them and by further
    properties of the code.

    Conventions.
    - [int64] values are integers of [Z]; every [+], [-], [++] and [--] of
      the source is written with [add64] / [sub64], which wrap around.
    - Go's [int] is used for slice indices and counters only; it is [nat].
    - A slice is a [list]; [s[i]] is [s !! i], and an index out of range
      (a runtime panic in Go) makes the step return [None].
    - [fmt.Sprint] of an integer is kept as the integer itself, so a
      schedule row is a record of seven integers.
    - [float64] totals are kept as the exact integers they are converted
      from (the conversion is exact below 2^53); the three averages are
      represented by their operands. *)

From Stdlib Require Import ZArith QArith Lia ZifyNat DecimalString.
From stdpp Require Import base tactics option list gmap sorting strings.

Local Open Scope Z_scope.

(** ** 64-bit integers *)

Definition MaxInt64 : Z := 9223372036854775807.
Definition MinInt64 : Z := -9223372036854775808.

Definition wrap64 (z : Z) : Z := (z + 2 ^ 63) mod 2 ^ 64 - 2 ^ 63.
Definition add64 (a b : Z) : Z := wrap64 (a + b).
Definition sub64 (a b : Z) : Z := wrap64 (a - b).

Definition in_int64 (z : Z) : Prop := MinInt64 <= z <= MaxInt64.

(** ** Data model *)

Record Process := mkProcess {
  ProcessID : Z;
  ArrivalTime : Z;
  BurstDuration : Z;
  Priority : Z
}.

Record TimeSlice := mkTimeSlice {
  PID : Z;
  Start : Z;
  Stop : Z
}.

(** One line of the schedule table: the seven values that the source
    prints into [schedule[i]], in the order of the table header
    (ID, Priority, Burst, Arrival, Wait, Turnaround, Exit). *)
Record ScheduleRow := mkRow {
  rowID : Z;
  rowPriority : Z;
  rowBurst : Z;
  rowArrival : Z;
  rowWait : Z;
  rowTurnaround : Z;
  rowCompletion : Z
}.

(** What a scheduling routine hands to [outputGantt] and [outputSchedule].
    [schedule] has one slot per process; a slot that was never assigned is
    [None] (a nil row). The averages are given by their operands:
    [aveWait = outTotalWait / outCount],
    [aveTurnaround = outTotalTurnaround / outCount],
    [aveThroughput = outCount / outLastCompletionTime]. *)
Record Output := mkOutput {
  outGantt : list TimeSlice;
  outSchedule : list (option ScheduleRow);
  outTotalWait : Z;
  outTotalTurnaround : Z;
  outCount : Z;
  outLastCompletionTime : Z
}.

(** [aveThroughput := count / lastCompletionTime], as an exact rational. *)
Definition aveThroughput (o : Output) : Q :=
  (inject_Z (outCount o) / inject_Z (outLastCompletionTime o))%Q.

(** The rows that a run has filled in. *)
Definition rows (o : Output) : list ScheduleRow := omap id (outSchedule o).

(** Result of a loop that may fail or may not stop. *)
Inductive outcome (A : Type) : Type :=
  | Done (a : A)
  | Panic
  | Timeout.
Arguments Done {A} a.
Arguments Panic {A}.
Arguments Timeout {A}.

(** ** [sort.Slice(processes, func(i, j) { ArrivalTime[i] < ArrivalTime[j] })]

    [sort.Slice] is not stable and its algorithm depends on the length of
    the slice, so the schedulers take the sorting function as an argument
    and the general theorems hold for every function with the contract of
    [sort.Slice]: the result is a rearrangement of the slice in which no
    element has a smaller [ArrivalTime] than an element before it. *)

Definition arrival_le (p q : Process) : Prop := ArrivalTime p <= ArrivalTime q.

Record SortSlice := mkSortSlice {
  sort_by_arrival :> list Process -> list Process;
  sort_by_arrival_perm : forall l, sort_by_arrival l ≡ₚ l;
  sort_by_arrival_sorted : forall l, StronglySorted arrival_le (sort_by_arrival l)
}.

(** For slices of at most 12 elements [sort.Slice] runs an insertion sort:
    element [i] is swapped towards the front while it is less than its
    left neighbour. [insert_right p l] inserts [p] into the sorted prefix
    [l] in that way. *)
Fixpoint insert_right (p : Process) (l : list Process) : list Process :=
  match l with
  | [] => [p]
  | q :: l' =>
      if decide (Forall (fun x => ArrivalTime p < ArrivalTime x) l)
      then p :: l
      else q :: insert_right p l'
  end.

Definition insertionSort (l : list Process) : list Process :=
  fold_left (fun acc p => insert_right p acc) l [].

(** ** First-come, first-serve *)

Module FCFS.

Record state := mkState {
  serviceTime : Z;
  totalWait : Z;
  totalTurnaround : Z;
  lastCompletionTime : Z;
  waitingTime : Z;
  schedule : list (option ScheduleRow);
  gantt : list TimeSlice
}.

Definition init : state := mkState 0 0 0 0 0 [] [].

(** Body of [for i := range processes]. The loop assigns [schedule[i]]
    for [i = 0, 1, ...] in turn, which is kept as appending the row. *)
Definition iter (st : state) (p : Process) : state :=
  let waitingTime' :=
    if 0 <? ArrivalTime p
    then sub64 (serviceTime st) (ArrivalTime p)
    else waitingTime st in
  let start := add64 waitingTime' (ArrivalTime p) in
  let turnaround := add64 (BurstDuration p) waitingTime' in
  let completion :=
    add64 (add64 (BurstDuration p) (ArrivalTime p)) waitingTime' in
  let row := mkRow (ProcessID p) (Priority p) (BurstDuration p)
                   (ArrivalTime p) waitingTime' turnaround completion in
  let serviceTime' := add64 (serviceTime st) (BurstDuration p) in
  mkState serviceTime'
          (totalWait st + waitingTime')
          (totalTurnaround st + turnaround)
          completion
          waitingTime'
          (schedule st ++ [Some row])
          (gantt st ++ [mkTimeSlice (ProcessID p) start serviceTime']).

Definition run (processes : list Process) : state :=
  fold_left iter processes init.

Definition output (processes : list Process) (st : state) : Output :=
  mkOutput (gantt st) (schedule st) (totalWait st) (totalTurnaround st)
           (Z.of_nat (length processes)) (lastCompletionTime st).

End FCFS.

(** [FCFSSchedule] returns the contents of the caller's slice after the
    call together with what it prints. *)
Definition FCFSSchedule (processes : list Process) : list Process * Output :=
  (processes, FCFS.output processes (FCFS.run processes)).

(** ** Shortest-job-first *)

Module SJF.

Record state := mkState {
  currentIndex : nat;
  currentTime : Z;
  lastCompletionTime : Z;
  schedule : list (option ScheduleRow);
  gantt : list TimeSlice;
  remainingTime : list Z;
  waitingTimes : list Z;
  numOfCompletedProcesses : nat
}.

(** State at the head of the [for] loop: [remainingTime[i]] is the burst
    of process [i], everything else is zero. *)
Definition init (processes : list Process) : state :=
  let n := length processes in
  mkState 0 0 0 (replicate n None) [] (BurstDuration <$> processes)
          (replicate n 0) 0.

(** The inner [for i, p := range processes] that looks for the process to
    run: [acc] is [(minRemainTime, currentIndex)], [i] the index of the
    head of [ps]. [&&] does not read [remainingTime[i]] when the process
    has not arrived. *)
Fixpoint scan (t : Z) (rem : list Z) (i : nat) (ps : list Process)
         (acc : Z * nat) : option (Z * nat) :=
  match ps with
  | [] => Some acc
  | p :: ps' =>
      if ArrivalTime p <=? t then
        r ← rem !! i;
        scan t rem (S i) ps'
             (if (r <? acc.1) && (0 <? r) then (r, i) else acc)
      else scan t rem (S i) ps' acc
  end.

(** [gantt[len(gantt)-1].Stop = stop] *)
Definition set_last_stop (g : list TimeSlice) (stop : Z)
  : option (list TimeSlice) :=
  match length g with
  | O => None
  | S k =>
      s ← g !! k;
      Some (<[k := mkTimeSlice (PID s) (Start s) stop]> g)
  end.

(** [len(gantt) == 0 || gantt[len(gantt)-1].PID != pid] *)
Definition starts_slice (g : list TimeSlice) (pid : Z) : bool :=
  match last g with
  | None => true
  | Some s => negb (bool_decide (PID s = pid))
  end.

(** One iteration of [for numOfCompletedProcesses < totalProcessCount]. *)
Definition step (processes : list Process) (st : state) : option state :=
  '(minRemainTime, currentIndex') ←
    scan (currentTime st) (remainingTime st) 0 processes
         (MaxInt64, currentIndex st);
  if decide (minRemainTime = MaxInt64) then
    p ← processes !! numOfCompletedProcesses st;
    Some (mkState currentIndex' (ArrivalTime p) (lastCompletionTime st)
                  (schedule st) (gantt st) (remainingTime st)
                  (waitingTimes st) (numOfCompletedProcesses st))
  else
    p ← processes !! currentIndex';
    let gantt1 :=
      if starts_slice (gantt st) (ProcessID p)
      then gantt st ++ [mkTimeSlice (ProcessID p) (currentTime st) 0]
      else gantt st in
    r ← remainingTime st !! currentIndex';
    let r' := sub64 r 1 in
    let remainingTime' := <[currentIndex' := r']> (remainingTime st) in
    let currentTime' := add64 (currentTime st) 1 in
    if decide (r' = 0) then
      let stop := currentTime' in
      gantt2 ← set_last_stop gantt1 stop;
      _ ← waitingTimes st !! currentIndex';
      let w := sub64 (sub64 stop (BurstDuration p)) (ArrivalTime p) in
      let w' := if w <? 0 then 0 else w in
      let completion :=
        add64 (add64 (BurstDuration p) (ArrivalTime p)) w' in
      let last' :=
        if lastCompletionTime st <? completion
        then completion else lastCompletionTime st in
      _ ← schedule st !! currentIndex';
      let row := mkRow (ProcessID p) (Priority p) (BurstDuration p)
                       (ArrivalTime p) w' (add64 w' (BurstDuration p))
                       completion in
      Some (mkState currentIndex' currentTime' last'
                    (<[currentIndex' := Some row]> (schedule st))
                    gantt2 remainingTime'
                    (<[currentIndex' := w']> (waitingTimes st))
                    (S (numOfCompletedProcesses st)))
    else
      Some (mkState currentIndex' currentTime' (lastCompletionTime st)
                    (schedule st) gantt1 remainingTime'
                    (waitingTimes st) (numOfCompletedProcesses st)).

Fixpoint loop (fuel : nat) (processes : list Process) (st : state)
  : outcome state :=
  match fuel with
  | O => Timeout
  | S fuel' =>
      if decide (numOfCompletedProcesses st < length processes)%nat then
        match step processes st with
        | Some st' => loop fuel' processes st'
        | None => Panic
        end
      else Done st
  end.

(** [totalWaitingTime] *)
Definition totalWaitingTime (waitingTimes : list Z) : Z :=
  fold_left add64 waitingTimes 0.

(** [totalTurnAroundTime]; the two slices have the same length. *)
Definition totalTurnAroundTime (processes : list Process)
           (waitingTimes : list Z) : Z :=
  fold_left (fun result pw => add64 result (add64 (BurstDuration pw.1) pw.2))
            (zip processes waitingTimes) 0.

Definition output (processes : list Process) (st : state) : Output :=
  mkOutput (gantt st) (schedule st)
           (totalWaitingTime (waitingTimes st))
           (totalTurnAroundTime processes (waitingTimes st))
           (Z.of_nat (length processes)) (lastCompletionTime st).

End SJF.

(** [SJFSchedule]: the slice is sorted in place first, so the caller's
    slice holds [sort processes] afterwards whatever the loop does.
    [fuel] bounds the number of iterations of the outer loop. *)
Definition SJFSchedule (sort : list Process -> list Process) (fuel : nat)
           (processes : list Process) : list Process * outcome Output :=
  let processes' := sort processes in
  (processes',
   match SJF.loop fuel processes' (SJF.init processes') with
   | Done st => Done (SJF.output processes' st)
   | Panic => Panic
   | Timeout => Timeout
   end).

(** ** [container/heap] over [IntHeap]

    [IntHeap] is a slice of processes ordered by [Priority]; [heap.Push]
    and [heap.Pop] of Go's standard library sift with [up] and [down]. *)

Module GoHeap.

Abbreviation IntHeap := (list Process) (only parsing).

(** [h.Less(i, j)]; both indices are in range wherever it is called. *)
Definition Less (h : IntHeap) (i j : nat) : bool :=
  match h !! i, h !! j with
  | Some a, Some b => Priority a <? Priority b
  | _, _ => false
  end.

(** [h.Swap(i, j)] *)
Definition Swap (h : IntHeap) (i j : nat) : IntHeap :=
  match h !! i, h !! j with
  | Some a, Some b => <[j := a]> (<[i := b]> h)
  | _, _ => h
  end.

(** [up(h, j)]: the parent of [j] is [(j - 1) / 2]; the loop runs at most
    [j] times, [fuel] is given as the length of the heap. *)
Fixpoint up (fuel : nat) (h : IntHeap) (j : nat) : IntHeap :=
  match fuel with
  | O => h
  | S fuel' =>
      let i := ((j - 1) / 2)%nat in
      if bool_decide (i = j) || negb (Less h j i) then h
      else up fuel' (Swap h i j) i
  end.

(** [down(h, i0, n)] *)
Fixpoint down (fuel : nat) (h : IntHeap) (i n : nat) : IntHeap :=
  match fuel with
  | O => h
  | S fuel' =>
      let j1 := (2 * i + 1)%nat in
      if bool_decide (n <= j1)%nat then h
      else
        let j2 := (j1 + 1)%nat in
        let j := if bool_decide (j2 < n)%nat && Less h j2 j1
                 then j2 else j1 in
        if negb (Less h j i) then h
        else down fuel' (Swap h i j) j n
  end.

(** [heap.Push(h, x)]: append, then [up(h, h.Len()-1)]. *)
Definition Push (h : IntHeap) (x : Process) : IntHeap :=
  let h' := h ++ [x] in
  up (length h') h' (length h' - 1).

(** [heap.Pop(h)]: [n := h.Len() - 1; h.Swap(0, n); down(h, 0, n)], then
    [IntHeap.Pop] removes and returns the last element. On an empty heap
    [n] is [-1] and [h.Swap(0, -1)] indexes out of range. *)
Definition Pop (h : IntHeap) : option (Process * IntHeap) :=
  match length h with
  | O => None
  | S n =>
      let h' := down (length h) (Swap h 0 n) 0 n in
      x ← h' !! n;
      Some (x, take n h')
  end.

End GoHeap.

(** ** Priority *)

Module Prio.

Record state := mkState {
  currentTime : Z;
  insertedProcessIdx : nat;
  minHeap : GoHeap.IntHeap;
  gantt : list TimeSlice;
  turnAroundTimes : list Z;
  waitingTimes : list Z;
  lastCompletionTime : Z
}.

Inductive step_result :=
  | Continue (st : state)
  | Break (st : state)
  | Failed.

(** [processesMapIndex]: a later process with the same id overwrites an
    earlier one. *)
Fixpoint mapIndex (i : nat) (ps : list Process) (m : gmap Z nat)
  : gmap Z nat :=
  match ps with
  | [] => m
  | p :: ps' => mapIndex (S i) ps' (<[ProcessID p := i]> m)
  end.

(** [totalBurstDuration], computed and never used by the source. *)
Definition totalBurstDuration (ps : list Process) : Z :=
  fold_left (fun acc p => add64 acc (BurstDuration p)) ps 0.

Definition init (processes : list Process) : option state :=
  p0 ← processes !! 0%nat;
  let n := length processes in
  Some (mkState (ArrivalTime p0) 0 [] [] (replicate n 0) (replicate n 0) 0).

(** The inner loop that pushes the processes arriving at [t]; [pending]
    is [processes[insertedProcessIdx:]]. *)
Fixpoint push_arrivals (t : Z) (pending : list Process)
         (h : GoHeap.IntHeap) (idx : nat) : GoHeap.IntHeap * nat :=
  match pending with
  | [] => (h, idx)
  | p :: pending' =>
      if decide (ArrivalTime p = t)
      then push_arrivals t pending' (GoHeap.Push h p) (S idx)
      else (h, idx)
  end.

Definition starts_slice (g : list TimeSlice) (pid : Z) : bool :=
  match last g with
  | None => true
  | Some s => negb (bool_decide (PID s = pid))
  end.

(** The part of an iteration from [heap.Pop] on, at time [t]. *)
Definition run_unit (m : gmap Z nat) (st : state) (t : Z) (h : GoHeap.IntHeap)
           (inserted : nat) : step_result :=
  match GoHeap.Pop h with
  | None => Failed
  | Some (popped, h1) =>
      let burst' := sub64 (BurstDuration popped) 1 in
      let minPriorityProcess :=
        mkProcess (ProcessID popped) (ArrivalTime popped) burst'
                  (Priority popped) in
      let gantt' :=
        if starts_slice (gantt st) (ProcessID popped)
        then gantt st ++ [mkTimeSlice (ProcessID popped) t
                                      (add64 (add64 t burst') 1)]
        else gantt st in
      let t' := add64 t 1 in
      if decide (burst' = 0) then
        let idx := default 0%nat (m !! ProcessID popped) in
        let completionTime := t' in
        let tat := sub64 completionTime (ArrivalTime popped) in
        let wt := sub64 (sub64 tat burst') (ArrivalTime popped) in
        match turnAroundTimes st !! idx, waitingTimes st !! idx with
        | Some _, Some _ =>
            Continue (mkState t' inserted h1 gantt'
                       (<[idx := tat]> (turnAroundTimes st))
                       (<[idx := wt]> (waitingTimes st))
                       (if lastCompletionTime st <? completionTime
                        then completionTime else lastCompletionTime st))
        | _, _ => Failed
        end
      else
        Continue (mkState t' inserted (GoHeap.Push h1 minPriorityProcess)
                   gantt' (turnAroundTimes st) (waitingTimes st)
                   (if lastCompletionTime st <? t'
                    then t' else lastCompletionTime st))
  end.

(** One iteration of the [for { ... }] loop. When the heap is empty and
    processes remain, [currentTime] is moved to the next arrival and
    control falls through to [heap.Pop]. *)
Definition step (processes : list Process) (m : gmap Z nat) (st : state)
  : step_result :=
  let '(h, inserted) :=
    push_arrivals (currentTime st)
                  (drop (insertedProcessIdx st) processes)
                  (minHeap st) (insertedProcessIdx st) in
  if decide (length h = 0%nat) then
    if decide (inserted < length processes)%nat then
      match processes !! inserted with
      | Some p => run_unit m st (ArrivalTime p) h inserted
      | None => Failed
      end
    else
      Break (mkState (currentTime st) inserted h (gantt st)
                     (turnAroundTimes st) (waitingTimes st)
                     (lastCompletionTime st))
  else run_unit m st (currentTime st) h inserted.

Fixpoint loop (fuel : nat) (processes : list Process) (m : gmap Z nat)
         (st : state) : outcome state :=
  match fuel with
  | O => Timeout
  | S fuel' =>
      match step processes m st with
      | Continue st' => loop fuel' processes m st'
      | Break st' => Done st'
      | Failed => Panic
      end
  end.

(** The closing [for i, p := range processes]: [acc] is
    [(lastCompletionTime, schedule)]; the two slices of times have the
    length of [processes]. *)
Fixpoint fill_rows (ps : list Process) (wts tats : list Z)
         (last : Z) : Z * list (option ScheduleRow) :=
  match ps, wts, tats with
  | p :: ps', w :: wts', tat :: tats' =>
      let completion :=
        add64 (add64 (ArrivalTime p) (BurstDuration p)) w in
      let last' := if last <? completion then completion else last in
      let '(lastN, rs) := fill_rows ps' wts' tats' last' in
      (lastN,
       Some (mkRow (ProcessID p) (Priority p) (BurstDuration p)
                   (ArrivalTime p) w tat completion) :: rs)
  | _, _, _ => (last, [])
  end.

(** [total] *)
Definition total (arr : list Z) : Z := fold_left add64 arr 0.

Definition output (processes : list Process) (st : state) : Output :=
  let '(last, sched) :=
    fill_rows processes (waitingTimes st) (turnAroundTimes st)
              (lastCompletionTime st) in
  mkOutput (gantt st) sched (total (waitingTimes st))
           (total (turnAroundTimes st))
           (Z.of_nat (length processes)) last.

End Prio.

(** [SJFPrioritySchedule]; as for [SJFSchedule] the slice is sorted in
    place before anything else happens. *)
Definition SJFPrioritySchedule (sort : list Process -> list Process)
           (fuel : nat) (processes : list Process)
  : list Process * outcome Output :=
  let processes' := sort processes in
  (processes',
   match Prio.init processes' with
   | None => Panic
   | Some st0 =>
       match Prio.loop fuel processes' (Prio.mapIndex 0 processes' ∅) st0 with
       | Done st => Done (Prio.output processes' st)
       | Panic => Panic
       | Timeout => Timeout
       end
   end).

(** [RRSchedule] prints the title and nothing else. *)
Definition RRSchedule (processes : list Process) : list Process * Output :=
  (processes, mkOutput [] [] 0 0 0 0).


(** ** [main]

    [main] hands the same slice to the four routines in turn; a routine
    that does not return ends the program. The result is the slice as the
    last routine left it and what was printed. *)
Definition main (sort : list Process -> list Process) (fuel : nat)
           (processes : list Process)
  : list Process * outcome (Output * Output * Output * Output) :=
  let '(s1, o1) := FCFSSchedule processes in
  let '(s2, r2) := SJFSchedule sort fuel s1 in
  match r2 with
  | Done o2 =>
      let '(s3, r3) := SJFPrioritySchedule sort fuel s2 in
      match r3 with
      | Done o3 =>
          let '(s4, o4) := RRSchedule s3 in
          (s4, Done (o1, o2, o3, o4))
      | Panic => (s3, Panic)
      | Timeout => (s3, Timeout)
      end
  | Panic => (s2, Panic)
  | Timeout => (s2, Timeout)
  end.

(** ** [loadProcesses]

    The rows are those that [csv.NewReader(r).ReadAll()] returns, each the
    list of its fields; [ParseInt s] is [strconv.ParseInt(s, 10, 64)], with
    [None] for an error. A load ends in one of three ways. *)

Inductive loaded (A : Type) : Type :=
  | Loaded (a : A)
  | IndexOutOfRange
  | ExitStatus1.
Arguments Loaded {A} a.
Arguments IndexOutOfRange {A}.
Arguments ExitStatus1 {A}.

Module Load.

(** Sequencing: a panic or an exit ends the load. *)
Definition and_then {A B : Type} (m : loaded A) (f : A -> loaded B)
  : loaded B :=
  match m with
  | Loaded a => f a
  | IndexOutOfRange => IndexOutOfRange
  | ExitStatus1 => ExitStatus1
  end.

(** [mustStrToInt]: the process exits with status 1 on a parse error. *)
Definition mustStrToInt (ParseInt : string -> option Z) (s : string)
  : loaded Z :=
  match ParseInt s with
  | Some i => Loaded i
  | None => ExitStatus1
  end.

(** [mustStrToInt(rows[i][k])]: the index is checked before the call. *)
Definition field (ParseInt : string -> option Z) (row : list string)
           (k : nat) : loaded Z :=
  match row !! k with
  | Some s => mustStrToInt ParseInt s
  | None => IndexOutOfRange
  end.

(** The body of [for i := range rows]: [processes[i]] starts as the zero
    [Process], the three first fields are the id, the burst and the
    arrival, and the priority is read only from a row of exactly four
    fields. *)
Definition load_row (ParseInt : string -> option Z) (row : list string)
  : loaded Process :=
  and_then (field ParseInt row 0) (fun id =>
  and_then (field ParseInt row 1) (fun burst =>
  and_then (field ParseInt row 2) (fun arrival =>
  if decide (length row = 4%nat) then
    and_then (field ParseInt row 3) (fun priority =>
    Loaded (mkProcess id arrival burst priority))
  else Loaded (mkProcess id arrival burst 0)))).

Fixpoint load_rows (ParseInt : string -> option Z) (rows : list (list string))
  : loaded (list Process) :=
  match rows with
  | [] => Loaded []
  | row :: rows' =>
      and_then (load_row ParseInt row) (fun p =>
      and_then (load_rows ParseInt rows') (fun ps =>
      Loaded (p :: ps)))
  end.

End Load.

(** [loadProcesses], after [ReadAll] has returned [rows] without error. *)
Definition loadProcesses (ParseInt : string -> option Z)
           (rows : list (list string)) : loaded (list Process) :=
  Load.load_rows ParseInt rows.

(** ** [outputGantt]

    The text written to [w]; [Sprint] is [fmt.Sprint] on an [int64].
    [strings.Repeat] panics on a negative count, which is [None] here
    (what was written before the panic is not kept). *)

Module Gantt.

Definition newline : string := String (Ascii.ascii_of_nat 10) "".
Definition tab : string := String (Ascii.ascii_of_nat 9) "".

Fixpoint spaces (n : nat) : string :=
  match n with
  | O => ""
  | S n' => String (Ascii.ascii_of_nat 32) (spaces n')
  end.

(** [strings.Repeat(" ", count)] *)
Definition Repeat_space (count : Z) : option string :=
  if count <? 0 then None else Some (spaces (Z.to_nat count)).

(** [padding, pid, padding, "|"] with [padding] of [(8-len(pid))/2]
    spaces; the division of Go truncates towards zero. *)
Definition cell (Sprint : Z -> string) (s : TimeSlice) : option string :=
  let pid := Sprint (PID s) in
  padding ← Repeat_space ((8 - Z.of_nat (String.length pid)) ÷ 2);
  Some (padding +:+ pid +:+ padding +:+ "|").

(** The first [for i := range gantt]. *)
Fixpoint cells (Sprint : Z -> string) (g : list TimeSlice) : option string :=
  match g with
  | [] => Some ""
  | s :: g' =>
      c ← cell Sprint s;
      rest ← cells Sprint g';
      Some (c +:+ rest)
  end.

(** The second [for i := range gantt]: every [Start], and the [Stop] of
    the slice with index [len(gantt)-1]. *)
Fixpoint marks (Sprint : Z -> string) (g : list TimeSlice) : string :=
  match g with
  | [] => ""
  | s :: g' =>
      Sprint (Start s) +:+ tab +:+
      match g' with
      | [] => Sprint (Stop s)
      | _ :: _ => marks Sprint g'
      end
  end.

End Gantt.

Definition outputGantt (Sprint : Z -> string) (gantt : list TimeSlice)
  : option string :=
  cs ← Gantt.cells Sprint gantt;
  Some ("Gantt schedule" +:+ Gantt.newline +:+ "|" +:+ cs +:+ Gantt.newline
        +:+ Gantt.marks Sprint gantt +:+ Gantt.newline +:+ Gantt.newline).

(** * Vocabulary of the properties *)

(** ** Batches *)

(** The input record of the specification: arrival not negative, burst
    positive. *)
Definition well_formed (p : Process) : Prop :=
  0 <= ArrivalTime p /\ 0 < BurstDuration p.

(** A process of the data model whose burst is also below [MaxInt64]. *)
Definition well_bounded (p : Process) : Prop :=
  0 <= ArrivalTime p /\ 0 < BurstDuration p < MaxInt64.

(** Every burst is positive and below the value that the scan starts
    from. *)
Definition bursts_bounded (ps : list Process) : Prop :=
  forall p, p ∈ ps -> 0 < BurstDuration p < MaxInt64.

(** Sum of the burst durations, as an unbounded integer. *)
Definition total_burst (ps : list Process) : Z :=
  foldr (fun p acc => BurstDuration p + acc) 0 ps.

(** ** Rows and slices *)

(** The row invariant of the data model, in the arithmetic of the rows
    ([int64]). *)
Definition row_consistent (r : ScheduleRow) : Prop :=
  rowTurnaround r = add64 (rowBurst r) (rowWait r) /\
  rowCompletion r = add64 (rowArrival r) (rowTurnaround r).

(** [P] holds of every row that has been filled in. *)
Definition all_rows (P : ScheduleRow -> Prop)
           (sched : list (option ScheduleRow)) : Prop :=
  Forall (fun o => match o with Some r => P r | None => True end) sched.

(** Largest completion time of a list of rows ([0] for no rows). *)
Definition max_completion (rs : list ScheduleRow) : Z :=
  foldr (fun r acc => Z.max (rowCompletion r) acc) 0 rs.

(** Two slices overlap when each starts before the other stops. *)
Definition overlap (a b : TimeSlice) : Prop :=
  Start a < Stop b /\ Start b < Stop a.

(** ** The loop of SJF *)

Module SJFSpec.

(** Process [i] has arrived and still has work to do. *)
Definition eligible (ps : list Process) (st : SJF.state) (i : nat) : Prop :=
  exists p r,
    ps !! i = Some p /\ SJF.remainingTime st !! i = Some r /\
    ArrivalTime p <= SJF.currentTime st /\ 0 < r.


(** The states at the head of the outer loop during a run on [ps]. *)
Inductive reachable (ps : list Process) : SJF.state -> Prop :=
  | reach_init : reachable ps (SJF.init ps)
  | reach_step st st' :
      reachable ps st ->
      (SJF.numOfCompletedProcesses st < length ps)%nat ->
      SJF.step ps st = Some st' ->
      reachable ps st'.



(** The iteration only moves the clock to [t]: no time unit is consumed,
    no process runs and nothing is recorded. *)
Definition jumps_to (st st' : SJF.state) (t : Z) : Prop :=
  SJF.currentTime st' = t /\
  SJF.remainingTime st' = SJF.remainingTime st /\
  SJF.numOfCompletedProcesses st' = SJF.numOfCompletedProcesses st /\
  SJF.gantt st' = SJF.gantt st /\
  SJF.schedule st' = SJF.schedule st /\
  SJF.waitingTimes st' = SJF.waitingTimes st.

End SJFSpec.

(** Process [i] is the one the specification wants to run: it is eligible,
    no eligible process has less remaining time, and among those with the
    same remaining time it has the lowest index. *)
Definition selected (ps : list Process) (st : SJF.state) (i : nat) : Prop :=
  SJFSpec.eligible ps st i /\
  forall j ri rj,
    SJFSpec.eligible ps st j ->
    SJF.remainingTime st !! i = Some ri ->
    SJF.remainingTime st !! j = Some rj ->
    ri <= rj /\ (rj = ri -> (i <= j)%nat).

(** Number of entries that are [0]: the completed processes. *)
Fixpoint count_zero (l : list Z) : nat :=
  match l with
  | [] => 0%nat
  | r :: l' => if decide (r = 0) then S (count_zero l') else count_zero l'
  end.

(** Work that is left. *)
Fixpoint sum_rem (l : list Z) : Z :=
  match l with
  | [] => 0
  | r :: l' => r + sum_rem l'
  end.

(** What holds at the head of the outer loop, whatever the arrival times
    are: the slices of the state have the length of the batch, a remaining
    time lies between 0 and the burst, and the counter counts the
    processes whose remaining time is 0. *)
Record sjf_inv (ps : list Process) (st : SJF.state) : Prop := mk_sjf_inv {
  inv_rem_len : length (SJF.remainingTime st) = length ps;
  inv_wait_len : length (SJF.waitingTimes st) = length ps;
  inv_sched_len : length (SJF.schedule st) = length ps;
  inv_rem_range :
    forall i p r, ps !! i = Some p -> SJF.remainingTime st !! i = Some r ->
                  0 <= r <= BurstDuration p;
  inv_completed :
    SJF.numOfCompletedProcesses st = count_zero (SJF.remainingTime st)
}.


(** ** The loop of Priority *)

(** Work that is left: the bursts in the heap and the bursts of the
    processes that have not been pushed. *)
Definition prio_measure (ps : list Process) (st : Prio.state) : Z :=
  total_burst (Prio.minHeap st)
  + total_burst (drop (Prio.insertedProcessIdx st) ps).

(** The bursts in the heap are positive and below [MaxInt64]. *)
Definition prio_inv (st : Prio.state) : Prop :=
  Forall (fun p => 0 < BurstDuration p < MaxInt64) (Prio.minHeap st).

(** ** Example batches *)

(** [proc id burst arrival priority], in the order of the fields of a line of
    the input file. *)
Definition proc (id burst arrival priority : Z) : Process :=
  mkProcess id arrival burst priority.

Definition batch_two_priorities : list Process :=
  [proc 1 4 0 2; proc 2 2 0 1].
Definition batch_gap : list Process := [proc 1 1 0 0; proc 2 1 5 0].
Definition batch_late : list Process := [proc 1 3 5 0].
Definition batch_same_arrival : list Process := [proc 1 5 0 0; proc 2 3 0 0].
Definition batch_preempted : list Process := [proc 1 5 2 0; proc 2 2 3 0].
Definition batch_preempted_priority : list Process :=
  [proc 1 4 0 2; proc 2 2 1 1].

(** ** Further vocabulary *)

(** The columns of a row that are copied from the process, and the same
    fields of a process. *)
Definition row_key (r : ScheduleRow) : Z * Z * Z * Z :=
  (rowID r, rowPriority r, rowBurst r, rowArrival r).

Definition process_key (p : Process) : Z * Z * Z * Z :=
  (ProcessID p, Priority p, BurstDuration p, ArrivalTime p).

(** [serviceTime] of FCFS after the processes [ps]: the sum of their
    bursts in [int64]. *)
Definition service_after (ps : list Process) : Z :=
  fold_left add64 (BurstDuration <$> ps) 0.

(** The three slices that SJF allocates have the length of the batch. *)
Definition sjf_lengths (ps : list Process) (st : SJF.state) : Prop :=
  length (SJF.remainingTime st) = length ps /\
  length (SJF.waitingTimes st) = length ps /\
  length (SJF.schedule st) = length ps.

(** What SJF computes when process [p] completes at clock [stop]: the
    clamped wait and the row. *)
Definition sjf_wait (p : Process) (stop : Z) : Z :=
  let w := sub64 (sub64 stop (BurstDuration p)) (ArrivalTime p) in
  if w <? 0 then 0 else w.

Definition sjf_row (p : Process) (stop : Z) : ScheduleRow :=
  mkRow (ProcessID p) (Priority p) (BurstDuration p) (ArrivalTime p)
        (sjf_wait p stop)
        (add64 (sjf_wait p stop) (BurstDuration p))
        (add64 (add64 (BurstDuration p) (ArrivalTime p)) (sjf_wait p stop)).

(** The timeline once process [p] has been given the unit that starts at
    [t]: a new slice unless the last one is already a slice of [p]. *)
Definition sjf_gantt_open (g : list TimeSlice) (p : Process) (t : Z)
  : list TimeSlice :=
  if SJF.starts_slice g (ProcessID p)
  then g ++ [mkTimeSlice (ProcessID p) t 0]
  else g.

(** The table of SJF during the run: the slot of a process with work left
    is empty, a row that has been written carries the id, priority, burst
    and arrival of the process of its slot, the counter of completed
    processes is the number of rows, and [lastCompletionTime] is the
    largest completion time in the table. *)
Record sjf_table_inv (ps : list Process) (st : SJF.state) : Prop :=
  mk_sjf_table_inv {
  tbl_unfilled :
    forall i r, SJF.remainingTime st !! i = Some r -> r <> 0 ->
                SJF.schedule st !! i = Some None;
  tbl_keys :
    forall i row, SJF.schedule st !! i = Some (Some row) ->
                  exists p, ps !! i = Some p /\ row_key row = process_key p;
  tbl_count :
    SJF.numOfCompletedProcesses st = length (omap id (SJF.schedule st));
  tbl_last :
    SJF.lastCompletionTime st = max_completion (omap id (SJF.schedule st))
}.



(** ** Loading *)

(** Field [k] of [row] as an integer, when the field is there and
    parses. *)
Definition parsed (ParseInt : string -> option Z) (row : list string)
           (k : nat) : option Z :=
  row !! k ≫= ParseInt.

(** The process that a row stands for: id, burst and arrival from the
    first three fields, and the priority from the fourth field of a row of
    exactly four fields, 0 for any other row. *)
Definition row_process (ParseInt : string -> option Z) (row : list string)
           (p : Process) : Prop :=
  parsed ParseInt row 0 = Some (ProcessID p) /\
  parsed ParseInt row 1 = Some (BurstDuration p) /\
  parsed ParseInt row 2 = Some (ArrivalTime p) /\
  if decide (length row = 4%nat)
  then parsed ParseInt row 3 = Some (Priority p)
  else Priority p = 0.

(** ** The chart *)

(** What [outputGantt] reads of a slice that is not the last one. *)
Definition slice_head (s : TimeSlice) : Z * Z := (PID s, Start s).

(** ** Idle gaps *)



(** ** The heap *)

(** The heap condition of [container/heap] for [IntHeap]: no element is
    less than its parent, the element at index [(j - 1) / 2]. *)
Definition heap_ordered (h : list Process) : Prop :=
  forall j p q, (0 < j)%nat ->
                h !! ((j - 1) / 2)%nat = Some p -> h !! j = Some q ->
                Priority p <= Priority q.

(** ** The totals of SJF *)

(** The wait kept in [waitingTimes] for a row that has been written is the
    wait of the row, and the turnaround of the row is that wait plus the
    burst. *)
Definition sjf_waits_recorded (st : SJF.state) : Prop :=
  forall i row, SJF.schedule st !! i = Some (Some row) ->
                SJF.waitingTimes st !! i = Some (rowWait row) /\
                rowTurnaround row = add64 (rowBurst row) (rowWait row).

(** ** Decimal numerals

    [strconv.ParseInt(s, 10, 64)] and [fmt.Sprint] on an [int64], for the
    examples: an optional sign followed by decimal digits, with an error
    outside of [int64]; and the decimal numeral of an integer. *)
Definition parseDecimal (s : string) : option Z :=
  let parsed :=
    match s with
    | EmptyString => None
    | String c s' =>
        if Ascii.eqb c (Ascii.ascii_of_nat 43)
        then Z.of_uint <$> NilZero.uint_of_string s'
        else Z.of_int <$> NilZero.int_of_string s
    end in
  z ← parsed;
  if (MinInt64 <=? z) && (z <=? MaxInt64) then Some z else None.

Definition sprintDecimal (z : Z) : string :=
  NilZero.string_of_int (Z.to_int z).

(** ** Timelines *)

(** No two neighbours of the list are equal. *)
Definition no_repeat (l : list Z) : Prop :=
  forall i a b, l !! i = Some a -> l !! S i = Some b -> a <> b.

(** ** The times of Priority *)

(** What Priority has recorded for the process at each index: nothing
    yet, or a wait that is the turnaround minus the arrival time. *)
Definition prio_times_inv (ps : list Process) (st : Prio.state) : Prop :=
  (forall x, x ∈ Prio.minHeap st ->
             exists p, p ∈ ps /\ ProcessID x = ProcessID p /\
                       ArrivalTime x = ArrivalTime p) /\
  forall i p tat wt,
    ps !! i = Some p ->
    Prio.turnAroundTimes st !! i = Some tat ->
    Prio.waitingTimes st !! i = Some wt ->
    (wt = 0 /\ tat = 0) \/ wt = sub64 tat (ArrivalTime p).

(** * Properties *)

(** ** 64-bit arithmetic *)

Lemma wrap64_id z : in_int64 z -> wrap64 z = z.
Proof.
  unfold in_int64, wrap64, MinInt64, MaxInt64. intros Hz.
  rewrite Z.mod_small; lia.
Qed.

Lemma wrap64_range z : in_int64 (wrap64 z).
Proof.
  unfold in_int64, wrap64, MinInt64, MaxInt64.
  pose proof (Z.mod_pos_bound (z + 2 ^ 63) (2 ^ 64)). lia.
Qed.

Lemma wrap64_add_l a b : wrap64 (wrap64 a + b) = wrap64 (a + b).
Proof.
  unfold wrap64.
  replace ((a + 2 ^ 63) mod 2 ^ 64 - 2 ^ 63 + b + 2 ^ 63)
    with ((a + 2 ^ 63) mod 2 ^ 64 + b) by lia.
  rewrite Zplus_mod_idemp_l. do 2 f_equal. lia.
Qed.

Lemma wrap64_add_r a b : wrap64 (a + wrap64 b) = wrap64 (a + b).
Proof. rewrite (Z.add_comm a), wrap64_add_l. f_equal. lia. Qed.

Lemma add64_assoc_swap b a w :
  add64 (add64 b a) w = add64 a (add64 b w).
Proof.
  unfold add64. rewrite wrap64_add_l, wrap64_add_r. f_equal. lia.
Qed.

Lemma sub64_pred r : 0 < r <= MaxInt64 -> sub64 r 1 = r - 1.
Proof.
  intros Hr. apply wrap64_id. unfold in_int64, MinInt64, MaxInt64 in *. lia.
Qed.


(** ** The insertion sort meets the contract of [sort.Slice] *)

Lemma insert_right_perm p l : insert_right p l ≡ₚ p :: l.
Proof.
  induction l as [|q l IH]; simpl; [done|].
  case_decide; [done|]. rewrite IH. apply Permutation_swap.
Qed.

Lemma insert_right_sorted p l :
  StronglySorted arrival_le l -> StronglySorted arrival_le (insert_right p l).
Proof.
  induction 1 as [|q l Hs IH Hq]; simpl.
  - repeat constructor.
  - case_decide as Hall.
    + constructor; [by constructor|].
      eapply Forall_impl; [exact Hall|]. unfold arrival_le. simpl. lia.
    + constructor; [exact IH|].
      rewrite insert_right_perm. constructor; [|exact Hq].
      unfold arrival_le.
      destruct (decide (ArrivalTime q <= ArrivalTime p)) as [|Hlt]; [done|].
      exfalso. apply Hall. constructor; [lia|].
      eapply Forall_impl; [exact Hq|]. unfold arrival_le. simpl. lia.
Qed.

Lemma insertionSort_from_perm l acc :
  fold_left (fun acc p => insert_right p acc) l acc ≡ₚ acc ++ l.
Proof.
  revert acc. induction l as [|p l IH]; intros acc; simpl.
  - by rewrite app_nil_r.
  - rewrite IH, insert_right_perm. simpl. apply Permutation_middle.
Qed.

Lemma insertionSort_from_sorted l acc :
  StronglySorted arrival_le acc ->
  StronglySorted arrival_le (fold_left (fun acc p => insert_right p acc) l acc).
Proof.
  revert acc. induction l as [|p l IH]; intros acc Hacc; simpl; [done|].
  apply IH. by apply insert_right_sorted.
Qed.

Lemma insertionSort_perm l : insertionSort l ≡ₚ l.
Proof. unfold insertionSort. by rewrite insertionSort_from_perm. Qed.

Lemma insertionSort_sorted l : StronglySorted arrival_le (insertionSort l).
Proof. apply insertionSort_from_sorted. constructor. Qed.

(** [sort.Slice] as it runs on short slices. *)
Definition goInsertionSort : SortSlice :=
  mkSortSlice insertionSort insertionSort_perm insertionSort_sorted.

(** ** Rows *)

Lemma all_rows_omap P sched : all_rows P sched -> Forall P (omap id sched).
Proof.
  induction 1 as [|[r|] sched HP _ IH]; simpl; auto.
Qed.

Lemma all_rows_snoc P sched r :
  all_rows P sched -> P r -> all_rows P (sched ++ [Some r]).
Proof. intros Hs Hr. apply Forall_app. split; [done|]. by repeat constructor. Qed.



Lemma add64_comm a b : add64 a b = add64 b a.
Proof. unfold add64. f_equal. lia. Qed.

(** ** FCFS *)

Lemma fcfs_iter_schedule (P : ScheduleRow -> Prop) :
  (forall st p r,
      last (FCFS.schedule (FCFS.iter st p)) = Some (Some r) -> P r) ->
  forall ps st,
    all_rows P (FCFS.schedule st) ->
    all_rows P (FCFS.schedule (fold_left FCFS.iter ps st)).
Proof.
  intros HP ps. induction ps as [|p ps IH]; intros st Hst; simpl; [done|].
  apply IH. simpl. apply all_rows_snoc; [done|].
  apply (HP st p). simpl. by rewrite last_snoc.
Qed.

(** The rows of FCFS satisfy the invariant of the data model. *)
Lemma fcfs_rows_consistent ps :
  Forall row_consistent (rows (FCFSSchedule ps).2).
Proof.
  apply all_rows_omap. simpl. apply fcfs_iter_schedule; [|by constructor].
  intros st p r. simpl. rewrite last_snoc. intros [= <-].
  split; simpl; [done|]. apply add64_assoc_swap.
Qed.

(** What FCFS computes as the wait of the process that follows the
    processes [pre]: with a positive arrival time the service time minus
    the arrival time, whatever its sign; otherwise the wait of the previous
    process. The service time is the wrapped sum of the bursts of [pre]. *)
Lemma fcfs_wait_of_process pre p suf :
  exists r,
    outSchedule (FCFSSchedule (pre ++ p :: suf)).2 !! length pre = Some (Some r) /\
    rowID r = ProcessID p /\
    rowWait r =
      (if 0 <? ArrivalTime p
       then sub64 (FCFS.serviceTime (FCFS.run pre)) (ArrivalTime p)
       else FCFS.waitingTime (FCFS.run pre)) /\
    FCFS.serviceTime (FCFS.run pre) = fold_left add64 (BurstDuration <$> pre) 0.
Proof.
  assert (Hlen : forall ps st,
             length (FCFS.schedule (fold_left FCFS.iter ps st))
             = (length (FCFS.schedule st) + length ps)%nat).
  { induction ps as [|q ps IH]; intros st; simpl; [lia|].
    rewrite IH. simpl. rewrite length_app. simpl. lia. }
  assert (Hkeep : forall ps st i o,
             FCFS.schedule st !! i = Some o ->
             FCFS.schedule (fold_left FCFS.iter ps st) !! i = Some o).
  { induction ps as [|q ps IH]; intros st i o Hi; simpl; [done|].
    apply IH. simpl. by apply lookup_app_l_Some. }
  assert (Hserv : forall ps st,
             FCFS.serviceTime (fold_left FCFS.iter ps st)
             = fold_left add64 (BurstDuration <$> ps) (FCFS.serviceTime st)).
  { induction ps as [|q ps IH]; intros st; simpl; [done|]. by rewrite IH. }
  eexists. split; [|split; [|split]].
  - simpl. unfold FCFS.run. rewrite fold_left_app. simpl.
    apply Hkeep. simpl.
    rewrite lookup_app_r; rewrite Hlen; simpl; [|lia].
    by rewrite Nat.sub_diag.
  - done.
  - done.
  - apply Hserv.
Qed.

(** ** SJF: what every iteration preserves *)


(** More fuel does not change a result that was reached. *)
Lemma sjf_loop_mono ps fuel extra st st' :
  SJF.loop fuel ps st = Done st' ->
  SJF.loop (fuel + extra) ps st = Done st'.
Proof.
  revert st. induction fuel as [|fuel IH]; intros st; simpl; [discriminate|].
  case_decide; [|done].
  destruct (SJF.step ps st); [apply IH|discriminate].
Qed.





(** ** Priority: the empty heap *)

(** When no process is ready and some are still to arrive, the iteration
    moves the clock and then pops the empty heap. *)
Lemma prio_step_idle_fails ps m st h inserted :
  Prio.push_arrivals (Prio.currentTime st)
                     (drop (Prio.insertedProcessIdx st) ps)
                     (Prio.minHeap st) (Prio.insertedProcessIdx st)
    = (h, inserted) ->
  length h = 0%nat ->
  (inserted < length ps)%nat ->
  Prio.step ps m st = Prio.Failed.
Proof.
  intros Hpush Hh Hlt. unfold Prio.step. rewrite Hpush.
  rewrite decide_True by done. rewrite decide_True by done.
  destruct (ps !! inserted); [|done].
  unfold Prio.run_unit, GoHeap.Pop. by rewrite Hh.
Qed.

(** ** The shared slice *)


(** ** Counting and summing remaining times *)

Lemma count_zero_le_length l : (count_zero l <= length l)%nat.
Proof. induction l as [|r l IH]; simpl; [lia|]. case_decide; lia. Qed.

Lemma count_zero_app l1 l2 :
  count_zero (l1 ++ l2) = (count_zero l1 + count_zero l2)%nat.
Proof.
  induction l1 as [|r l1 IH]; simpl; [done|]. rewrite IH. by case_decide.
Qed.

Lemma count_zero_take_le m l : (count_zero (take m l) <= count_zero l)%nat.
Proof.
  rewrite <- (take_drop m l) at 2. rewrite count_zero_app. lia.
Qed.

Lemma count_zero_all_zero l :
  Forall (fun r => r = 0) l -> count_zero l = length l.
Proof.
  induction 1 as [|r l Hr _ IH]; simpl; [done|].
  rewrite decide_True by done. by rewrite IH.
Qed.

Lemma count_zero_none_zero l :
  Forall (fun r => r <> 0) l -> count_zero l = 0%nat.
Proof.
  induction 1 as [|r l Hr _ IH]; simpl; [done|].
  by rewrite decide_False by done.
Qed.

Lemma count_zero_full l :
  count_zero l = length l -> Forall (fun r => r = 0) l.
Proof.
  induction l as [|r l IH]; simpl; [done|].
  pose proof (count_zero_le_length l).
  case_decide; intros Hc; [|lia]. constructor; [done|]. apply IH. lia.
Qed.

(** Fewer zeros than entries: some entry is not zero. *)
Lemma count_zero_lt_length l :
  (count_zero l < length l)%nat -> exists j r, l !! j = Some r /\ r <> 0.
Proof.
  induction l as [|r l IH]; simpl; [lia|].
  case_decide as Hr; intros Hlt.
  - destruct IH as (j & r' & Hj & Hr'); [lia|]. by exists (S j), r'.
  - by exists 0%nat, r.
Qed.

Lemma count_zero_insert l i r r' :
  l !! i = Some r -> r <> 0 ->
  count_zero (<[i := r']> l)
  = if decide (r' = 0) then S (count_zero l) else count_zero l.
Proof.
  revert i. induction l as [|x l IH]; intros [|i] Hi Hr; simplify_eq/=.
  - by rewrite (decide_False (P := r = 0)) by done.
  - rewrite (IH i) by done. by repeat case_decide.
Qed.

Lemma sum_rem_insert l i r r' :
  l !! i = Some r -> sum_rem (<[i := r']> l) = sum_rem l - r + r'.
Proof.
  revert i. induction l as [|x l IH]; intros [|i] Hi; simplify_eq/=.
  - lia.
  - rewrite (IH i) by done. lia.
Qed.

Lemma sum_rem_nonneg l : Forall (fun r => 0 <= r) l -> 0 <= sum_rem l.
Proof. induction 1 as [|r l Hr _ IH]; simpl; lia. Qed.


Lemma sum_rem_zero_all_zero l :
  Forall (fun r => 0 <= r) l -> sum_rem l <= 0 -> Forall (fun r => r = 0) l.
Proof.
  induction 1 as [|x l Hx Hl IH]; simpl; intros Hs; [done|].
  pose proof (sum_rem_nonneg l Hl).
  constructor; [lia|]. apply IH. lia.
Qed.

Lemma sum_rem_bursts ps : sum_rem (BurstDuration <$> ps) = total_burst ps.
Proof. induction ps as [|p ps IH]; csimpl; [done|]. by rewrite IH. Qed.

Lemma total_burst_perm ps ps' : ps ≡ₚ ps' -> total_burst ps = total_burst ps'.
Proof.
  induction 1 as [|p l l' _ IH|p q l|l l' l'' _ IH1 _ IH2]; simpl; lia.
Qed.

(** In a slice sorted by arrival an earlier index has an earlier (or the
    same) arrival time. *)
Lemma sorted_lookup_le ps i j p q :
  StronglySorted arrival_le ps ->
  ps !! i = Some p -> ps !! j = Some q -> (i <= j)%nat ->
  ArrivalTime p <= ArrivalTime q.
Proof.
  intros Hs. revert i j. induction Hs as [|x l Hs IH Hx]; intros i j Hi Hj Hij.
  - done.
  - destruct i as [|i], j as [|j]; simplify_eq/=; try lia.
    + eapply Forall_lookup_1 in Hx; [|exact Hj]. exact Hx.
    + apply (IH i j); [done|done|lia].
Qed.

(** ** SJF: the scan for the process to run *)

(** The scan either leaves the accumulator as it was, and then no process
    that has arrived and has work left has less remaining time than the
    accumulator holds, or returns the first process among those with the
    least remaining time, which is below what the accumulator held. *)
Lemma sjf_scan_spec t rem : forall ps i acc,
  (i + length ps <= length rem)%nat ->
  exists res, SJF.scan t rem i ps acc = Some res /\
    ((res = acc /\
      forall j p r, ps !! j = Some p -> rem !! (i + j)%nat = Some r ->
                    ArrivalTime p <= t -> 0 < r -> acc.1 <= r)
     \/
     (exists j p r,
         ps !! j = Some p /\ rem !! (i + j)%nat = Some r /\
         res = (r, (i + j)%nat) /\
         ArrivalTime p <= t /\ 0 < r /\ r < acc.1 /\
         forall j' p' r',
           ps !! j' = Some p' -> rem !! (i + j')%nat = Some r' ->
           ArrivalTime p' <= t -> 0 < r' ->
           r <= r' /\ (r' = r -> (j <= j')%nat))).
Proof.
  induction ps as [|p ps IH]; intros i acc Hlen; simpl in *.
  { eexists. split; [done|]. left. split; [done|]. intros j ? ? Hj. done. }
  destruct (lookup_lt_is_Some_2 rem i) as [r0 Hr0]; [lia|].
  assert (Hidx : forall j, (i + S j)%nat = (S i + j)%nat) by (intros; lia).
  assert (exists acc',
             SJF.scan t rem i (p :: ps) acc = SJF.scan t rem (S i) ps acc' /\
             ((acc' = (r0, i) /\ ArrivalTime p <= t /\ 0 < r0 /\ r0 < acc.1) \/
              (acc' = acc /\ (ArrivalTime p <= t -> 0 < r0 -> acc.1 <= r0))))
    as (acc' & Hscan & Hacc').
  { simpl. destruct (Z.leb_spec (ArrivalTime p) t) as [Harr|Harr].
    - rewrite Hr0. simpl.
      destruct (Z.ltb_spec r0 acc.1) as [Hlt|Hge];
        destruct (Z.ltb_spec 0 r0) as [Hpos|Hnpos]; simpl;
        eexists; (split; [reflexivity|]); [left|right|right|right];
        (split; [reflexivity|]); try done; lia.
    - eexists. split; [reflexivity|]. right. split; [done|lia]. }
  simpl in Hscan. rewrite Hscan. clear Hscan.
  destruct (IH (S i) acc') as (res & Hres & Hcase); [lia|].
  exists res. split; [done|].
  destruct Hacc' as [(-> & Harr & Hpos & Hlt)|[-> Hhead]].
  - (* the head is the candidate that the rest of the scan starts from *)
    right.
    destruct Hcase
      as [[-> Hall]|(j & q & r & Hj & Hr & -> & Hq & Hr1 & Hr2 & Hmin)].
    + exists 0%nat, p, r0. rewrite Nat.add_0_r.
      split; [done|]. split; [done|]. split; [done|]. split; [done|].
      split; [done|]. split; [done|].
      intros [|j'] p' r' Hj' Hr' Hp' Hpos'; simplify_eq/=.
      * rewrite Nat.add_0_r in Hr'. simplify_eq. split; [lia|]. lia.
      * rewrite Hidx in Hr'. split; [|lia].
        by apply (Hall j' p' r').
    + simpl in Hr2. exists (S j), q, r. rewrite Hidx.
      split; [done|]. split; [done|]. split; [done|]. split; [done|].
      split; [done|]. split; [lia|].
      intros [|j'] p' r' Hj' Hr' Hp' Hpos'; simplify_eq/=.
      * rewrite Nat.add_0_r in Hr'. simplify_eq. split; lia.
      * rewrite Hidx in Hr'.
        destruct (Hmin j' p' r') as [Hle Hfirst]; try done.
        split; [done|]. intros Heq. specialize (Hfirst Heq). lia.
  - (* the head is passed over *)
    destruct Hcase
      as [[-> Hall]|(j & q & r & Hj & Hr & -> & Hq & Hr1 & Hr2 & Hmin)].
    + left. split; [done|].
      intros [|j'] p' r' Hj' Hr' Hp' Hpos'; simplify_eq/=.
      * rewrite Nat.add_0_r in Hr'. simplify_eq. by apply Hhead.
      * rewrite Hidx in Hr'. by apply (Hall j' p' r').
    + right. exists (S j), q, r. rewrite Hidx.
      split; [done|]. split; [done|]. split; [done|]. split; [done|].
      split; [done|]. split; [done|].
      intros [|j'] p' r' Hj' Hr' Hp' Hpos'; simplify_eq/=.
      * rewrite Nat.add_0_r in Hr'. simplify_eq.
        specialize (Hhead Hp' Hpos'). split; lia.
      * rewrite Hidx in Hr'.
        destruct (Hmin j' p' r') as [Hle Hfirst]; try done.
        split; [done|]. intros Heq. specialize (Hfirst Heq). lia.
Qed.

(** ** SJF: the state of the loop *)

Lemma sjf_inv_init ps : bursts_bounded ps -> sjf_inv ps (SJF.init ps).
Proof.
  intros Hb. split; simpl.
  - apply length_fmap.
  - apply length_replicate.
  - apply length_replicate.
  - intros i p r Hp. rewrite list_lookup_fmap, Hp. simpl. intros [= <-].
    apply list_elem_of_lookup_2 in Hp. specialize (Hb p Hp). lia.
  - symmetry. apply count_zero_none_zero. apply Forall_fmap, Forall_forall.
    intros p Hp. specialize (Hb p Hp). simpl. lia.
Qed.

Lemma sjf_inv_rem_nonneg ps st :
  sjf_inv ps st -> Forall (fun r => 0 <= r) (SJF.remainingTime st).
Proof.
  intros Hinv. apply Forall_lookup. intros i r Hr.
  destruct (lookup_lt_is_Some_2 ps i) as [p Hp].
  { rewrite <- (inv_rem_len _ _ Hinv). by eapply lookup_lt_Some. }
  by destruct (inv_rem_range _ _ Hinv i p r).
Qed.

Lemma set_last_stop_some g stop :
  g <> [] -> exists g', SJF.set_last_stop g stop = Some g'.
Proof.
  intros Hg. unfold SJF.set_last_stop.
  destruct (length g) as [|k] eqn:Hlen.
  { by destruct g. }
  destruct (lookup_lt_is_Some_2 g k) as [s Hs]; [lia|].
  rewrite Hs. simpl. eauto.
Qed.

Lemma starts_slice_nonempty g pid s :
  (if SJF.starts_slice g pid then g ++ [s] else g) <> [].
Proof.
  unfold SJF.starts_slice. destruct (last g) as [x|] eqn:Hlast.
  - destruct (negb _).
    + by destruct g.
    + intros ->. done.
  - by destruct g.
Qed.

(** No process is eligible when the scan returns what it started from. *)
Lemma sjf_scan_none ps st (ci : nat) :
  bursts_bounded ps -> sjf_inv ps st ->
  (forall j p r, ps !! j = Some p -> SJF.remainingTime st !! (0 + j)%nat = Some r ->
                 ArrivalTime p <= SJF.currentTime st -> 0 < r ->
                 (MaxInt64, ci).1 <= r) ->
  forall i, ~ SJFSpec.eligible ps st i.
Proof.
  intros Hb Hinv Hall i (p & r & Hp & Hr & Harr & Hpos).
  specialize (Hall i p r Hp Hr Harr Hpos). simpl in Hall.
  destruct (inv_rem_range _ _ Hinv i p r Hp Hr) as [_ Hle].
  apply list_elem_of_lookup_2 in Hp. specialize (Hb p Hp). lia.
Qed.

(** One iteration of the outer loop, in a state that satisfies [sjf_inv]:
    either it runs the selected process for one unit, or no process is
    eligible and it only moves the clock to the arrival time of
    [processes[numOfCompletedProcesses]]. *)
Lemma sjf_step_cases ps st :
  bursts_bounded ps -> sjf_inv ps st ->
  (SJF.numOfCompletedProcesses st < length ps)%nat ->
  (exists i p r st',
      ps !! i = Some p /\ SJF.remainingTime st !! i = Some r /\
      selected ps st i /\
      SJF.step ps st = Some st' /\
      SJF.remainingTime st' = <[i := r - 1]> (SJF.remainingTime st) /\
      SJF.currentTime st' = add64 (SJF.currentTime st) 1 /\
      sjf_inv ps st')
  \/
  ((forall i, ~ SJFSpec.eligible ps st i) /\
   exists p st',
     ps !! SJF.numOfCompletedProcesses st = Some p /\
     SJF.step ps st = Some st' /\
     SJFSpec.jumps_to st st' (ArrivalTime p) /\
     sjf_inv ps st').
Proof.
  intros Hb Hinv Hk.
  destruct (sjf_scan_spec (SJF.currentTime st) (SJF.remainingTime st) ps 0
              (MaxInt64, SJF.currentIndex st))
    as (res & Hscan & Hcase).
  { rewrite (inv_rem_len _ _ Hinv). lia. }
  destruct Hcase
    as [[-> Hall]|(i & p & r & Hp & Hr & -> & Harr & Hpos & Hlt & Hmin)].
  - right. split; [by eapply sjf_scan_none|].
    destruct (lookup_lt_is_Some_2 ps (SJF.numOfCompletedProcesses st))
      as [p Hp]; [done|].
    exists p. eexists. split; [done|]. split.
    { unfold SJF.step. rewrite Hscan. simpl.
      rewrite Hp. simpl. reflexivity. }
    split; [done|].
    destruct Hinv. by split.
  - left. simpl in *.
    destruct (inv_rem_range _ _ Hinv i p r Hp Hr) as [_ Hle].
    assert (Hpb : 0 < BurstDuration p < MaxInt64).
    { apply Hb. by eapply list_elem_of_lookup_2. }
    assert (Hsub : sub64 r 1 = r - 1) by (apply sub64_pred; lia).
    assert (Hsel : selected ps st i).
    { split; [by exists p, r|].
      intros j ri rj (q & rq & Hq & Hrq & Hqa & Hqpos) Hri Hrj.
      rewrite Hr in Hri. rewrite Hrq in Hrj.
      injection Hri as <-. injection Hrj as <-.
      by apply (Hmin j q rq). }
    destruct (lookup_lt_is_Some_2 (SJF.waitingTimes st) i) as [w Hw].
    { rewrite (inv_wait_len _ _ Hinv). by eapply lookup_lt_Some. }
    destruct (lookup_lt_is_Some_2 (SJF.schedule st) i) as [o Ho].
    { rewrite (inv_sched_len _ _ Hinv). by eapply lookup_lt_Some. }
    destruct (set_last_stop_some
                (if SJF.starts_slice (SJF.gantt st) (ProcessID p)
                 then SJF.gantt st ++
                      [mkTimeSlice (ProcessID p) (SJF.currentTime st) 0]
                 else SJF.gantt st)
                (add64 (SJF.currentTime st) 1))
      as [g2 Hg2]; [apply starts_slice_nonempty|].
    exists i, p, r.
    assert (Hrange' : forall j q rq,
               ps !! j = Some q ->
               <[i := r - 1]> (SJF.remainingTime st) !! j = Some rq ->
               0 <= rq <= BurstDuration q).
    { intros j q rq Hq Hrq. destruct (decide (i = j)) as [->|Hne].
      - rewrite list_lookup_insert_eq in Hrq by (by eapply lookup_lt_Some).
        simplify_eq. lia.
      - rewrite list_lookup_insert_ne in Hrq by done.
        by apply (inv_rem_range _ _ Hinv j q rq). }
    assert (Hcount : count_zero (<[i := r - 1]> (SJF.remainingTime st))
                     = if decide (r - 1 = 0)
                       then S (SJF.numOfCompletedProcesses st)
                       else SJF.numOfCompletedProcesses st).
    { rewrite (count_zero_insert _ _ r) by (done || lia).
      by rewrite (inv_completed _ _ Hinv). }
    destruct (decide (r - 1 = 0)) as [Hz|Hnz].
    + eexists. split; [done|]. split; [done|]. split; [done|]. split.
      { unfold SJF.step. rewrite Hscan. simpl.
        rewrite decide_False by lia. rewrite Hp. simpl. rewrite Hr. simpl.
        rewrite Hsub. rewrite decide_True by done.
        rewrite Hg2. simpl. rewrite Hw. simpl. rewrite Ho. simpl.
        reflexivity. }
      simpl. split; [done|]. split; [done|].
      split; simpl; rewrite ?length_insert; try apply Hinv; done.
    + eexists. split; [done|]. split; [done|]. split; [done|]. split.
      { unfold SJF.step. rewrite Hscan. simpl.
        rewrite decide_False by lia. rewrite Hp. simpl. rewrite Hr. simpl.
        rewrite Hsub. rewrite decide_False by done.
        reflexivity. }
      simpl. split; [done|]. split; [done|].
      split; simpl; rewrite ?length_insert; try apply Hinv; done.
Qed.

(** ** SJF: the loop ends *)

Lemma sjf_loop_unfold fuel ps st :
  SJF.loop (S fuel) ps st =
  if decide (SJF.numOfCompletedProcesses st < length ps)%nat then
    match SJF.step ps st with
    | Some st' => SJF.loop fuel ps st'
    | None => Panic
    end
  else Done st.
Proof. reflexivity. Qed.

(** After the clock has been moved to the arrival time of
    [processes[numOfCompletedProcesses]] some process is eligible: that
    process, or one before it in the sorted slice. *)
Lemma sjf_after_jump_eligible ps st st' p :
  StronglySorted arrival_le ps -> sjf_inv ps st ->
  (SJF.numOfCompletedProcesses st < length ps)%nat ->
  ps !! SJF.numOfCompletedProcesses st = Some p ->
  SJFSpec.jumps_to st st' (ArrivalTime p) ->
  exists j, SJFSpec.eligible ps st' j.
Proof.
  intros Hsorted Hinv Hk Hp (Ht & Hrem & _).
  set (k := SJF.numOfCompletedProcesses st) in *.
  destruct (count_zero_lt_length (take (S k) (SJF.remainingTime st)))
    as (j & r & Hj & Hr).
  { rewrite length_take, (inv_rem_len _ _ Hinv).
    pose proof (count_zero_take_le (S k) (SJF.remainingTime st)).
    rewrite <- (inv_completed _ _ Hinv) in H. fold k in H. lia. }
  assert (Hjk : (j < S k)%nat).
  { apply lookup_lt_Some in Hj. rewrite length_take in Hj. lia. }
  rewrite lookup_take_lt in Hj by done.
  destruct (lookup_lt_is_Some_2 ps j) as [q Hq]; [lia|].
  exists j, q, r. rewrite Hrem, Ht.
  split; [done|]. split; [done|]. split.
  - apply (sorted_lookup_le ps j k); [done|done|done|lia].
  - destruct (inv_rem_range _ _ Hinv j q r Hq Hj). lia.
Qed.

(** From a state that satisfies [sjf_inv] with at most [m] units of work
    left, the loop ends within [2 * m + 1] iterations: every iteration
    that only moves the clock is followed by one that runs a process. *)
Lemma sjf_loop_terminates ps :
  StronglySorted arrival_le ps -> bursts_bounded ps ->
  forall m st,
    sjf_inv ps st ->
    sum_rem (SJF.remainingTime st) <= Z.of_nat m ->
    exists st',
      SJF.loop (2 * m + 1) ps st = Done st' /\ sjf_inv ps st' /\
      SJF.numOfCompletedProcesses st' = length ps.
Proof.
  intros Hsorted Hb m. induction m as [|m IH]; intros st Hinv Hsum.
  - (* no work left: every process is complete *)
    exists st. simpl.
    assert (Hz : Forall (fun r => r = 0) (SJF.remainingTime st)).
    { apply sum_rem_zero_all_zero; [by eapply sjf_inv_rem_nonneg|lia]. }
    apply count_zero_all_zero in Hz.
    rewrite <- (inv_completed _ _ Hinv), (inv_rem_len _ _ Hinv) in Hz.
    rewrite decide_False by lia. done.
  - replace (2 * S m + 1)%nat with (S (S (2 * m + 1))) by lia.
    rewrite sjf_loop_unfold.
    pose proof (count_zero_le_length (SJF.remainingTime st)) as Hcz.
    rewrite <- (inv_completed _ _ Hinv), (inv_rem_len _ _ Hinv) in Hcz.
    case_decide as Hk; [|exists st; split; [done|split; [done|lia]]].
    destruct (sjf_step_cases ps st Hb Hinv Hk)
      as [(i & p & r & st1 & Hp & Hr & Hsel & Hstep & Hrem1 & _ & Hinv1)
         |(Hnone & p & st1 & Hp & Hstep & Hjump & Hinv1)].
    + rewrite Hstep.
      destruct (IH st1 Hinv1) as (st' & Hloop & Hst').
      { rewrite Hrem1, (sum_rem_insert _ _ r) by done. lia. }
      exists st'. split; [|done].
      replace (S (2 * m + 1)) with (2 * m + 1 + 1)%nat by lia.
      by apply sjf_loop_mono.
    + rewrite Hstep. rewrite sjf_loop_unfold.
      assert (Hk1 : (SJF.numOfCompletedProcesses st1 < length ps)%nat).
      { destruct Hjump as (_ & _ & -> & _). done. }
      rewrite decide_True by done.
      destruct (sjf_step_cases ps st1 Hb Hinv1 Hk1)
        as [(i & q & r & st2 & Hq & Hr & Hsel & Hstep2 & Hrem2 & _ & Hinv2)
           |(Hnone1 & _)].
      * rewrite Hstep2. apply IH; [done|].
        rewrite Hrem2, (sum_rem_insert _ _ r) by done.
        destruct Hjump as (_ & -> & _). lia.
      * exfalso.
        destruct (sjf_after_jump_eligible ps st st1 p) as [j Hj]; try done.
        by apply (Hnone1 j).
Qed.

(** ** The fuel of [up] and [down]

    [heap.Push] and [heap.Pop] call [up] and [down] with as many
    iterations as the heap has elements. That is enough: the loops have
    stopped by then, since one more iteration gives the same heap. *)

Lemma heap_up_fuel fuel : forall h j,
  (j < fuel)%nat -> GoHeap.up (S fuel) h j = GoHeap.up fuel h j.
Proof.
  induction fuel as [|fuel IH]; intros h j Hj; [lia|].
  change (GoHeap.up (S (S fuel)) h j)
    with (if bool_decide (((j - 1) / 2)%nat = j)
             || negb (GoHeap.Less h j ((j - 1) / 2)%nat)
          then h
          else GoHeap.up (S fuel) (GoHeap.Swap h ((j - 1) / 2) j)
                         ((j - 1) / 2)%nat).
  change (GoHeap.up (S fuel) h j)
    with (if bool_decide (((j - 1) / 2)%nat = j)
             || negb (GoHeap.Less h j ((j - 1) / 2)%nat)
          then h
          else GoHeap.up fuel (GoHeap.Swap h ((j - 1) / 2) j)
                         ((j - 1) / 2)%nat).
  case_bool_decide as Hroot; cbn [orb]; [done|].
  destruct (negb _); [done|]. apply IH.
  assert (((j - 1) / 2 <= j - 1)%nat)
    by (apply Nat.Div0.div_le_upper_bound; lia).
  destruct j as [|j]; [done|]. lia.
Qed.

Lemma heap_down_fuel fuel : forall h i n,
  (n <= i + fuel)%nat -> GoHeap.down (S fuel) h i n = GoHeap.down fuel h i n.
Proof.
  induction fuel as [|fuel IH]; intros h i n Hn.
  - simpl. rewrite bool_decide_eq_true_2 by lia. done.
  - change (GoHeap.down (S (S fuel)) h i n)
      with (if bool_decide (n <= 2 * i + 1)%nat then h
            else
              let j := if bool_decide (2 * i + 1 + 1 < n)%nat
                          && GoHeap.Less h (2 * i + 1 + 1) (2 * i + 1)
                       then (2 * i + 1 + 1)%nat else (2 * i + 1)%nat in
              if negb (GoHeap.Less h j i) then h
              else GoHeap.down (S fuel) (GoHeap.Swap h i j) j n).
    change (GoHeap.down (S fuel) h i n)
      with (if bool_decide (n <= 2 * i + 1)%nat then h
            else
              let j := if bool_decide (2 * i + 1 + 1 < n)%nat
                          && GoHeap.Less h (2 * i + 1 + 1) (2 * i + 1)
                       then (2 * i + 1 + 1)%nat else (2 * i + 1)%nat in
              if negb (GoHeap.Less h j i) then h
              else GoHeap.down fuel (GoHeap.Swap h i j) j n).
    case_bool_decide; [done|]. cbv zeta.
    destruct (negb _); [done|]. apply IH.
    destruct (_ && _); lia.
Qed.

Lemma heap_Push_fuel h x extra :
  GoHeap.up (length (h ++ [x]) + extra) (h ++ [x]) (length (h ++ [x]) - 1)
  = GoHeap.Push h x.
Proof.
  unfold GoHeap.Push. induction extra as [|extra IH].
  - by rewrite Nat.add_0_r.
  - rewrite Nat.add_succ_r, heap_up_fuel; [done|].
    rewrite length_app. simpl. lia.
Qed.

Lemma heap_Pop_fuel h n extra :
  length h = S n ->
  GoHeap.down (length h + extra) (GoHeap.Swap h 0 n) 0 n
  = GoHeap.down (length h) (GoHeap.Swap h 0 n) 0 n.
Proof.
  intros Hlen. induction extra as [|extra IH].
  - by rewrite Nat.add_0_r.
  - rewrite Nat.add_succ_r, heap_down_fuel; [done|lia].
Qed.

(** ** The heap keeps its elements *)

Lemma heap_Swap_perm h i j : GoHeap.Swap h i j ≡ₚ h.
Proof.
  unfold GoHeap.Swap.
  destruct (h !! i) as [a|] eqn:Hi; [|done].
  destruct (h !! j) as [b|] eqn:Hj; [|done].
  by apply Permutation_insert_swap.
Qed.

Lemma heap_up_perm fuel : forall h j, GoHeap.up fuel h j ≡ₚ h.
Proof.
  induction fuel as [|fuel IH]; intros h j; simpl; [done|].
  destruct (_ || _); [done|]. by rewrite IH, heap_Swap_perm.
Qed.

Lemma heap_down_perm fuel : forall h i n, GoHeap.down fuel h i n ≡ₚ h.
Proof.
  induction fuel as [|fuel IH]; intros h i n; simpl; [done|].
  case_bool_decide; [done|].
  destruct (negb _); [done|]. by rewrite IH, heap_Swap_perm.
Qed.

Lemma heap_Push_perm h x : GoHeap.Push h x ≡ₚ x :: h.
Proof.
  unfold GoHeap.Push. rewrite heap_up_perm.
  symmetry. apply Permutation_cons_append.
Qed.

Lemma heap_Pop_perm h x h1 : GoHeap.Pop h = Some (x, h1) -> x :: h1 ≡ₚ h.
Proof.
  unfold GoHeap.Pop. destruct (length h) as [|n] eqn:Hlen; [done|].
  set (h' := GoHeap.down (S n) (GoHeap.Swap h 0 n) 0 n).
  assert (Hperm : h' ≡ₚ h) by (unfold h'; by rewrite heap_down_perm, heap_Swap_perm).
  destruct (h' !! n) as [y|] eqn:Hy; simpl; [|done].
  intros [= <- <-].
  rewrite <- Hperm.
  rewrite <- (take_drop n h') at 2.
  assert (Hdrop : drop n h' = [y]).
  { apply Permutation_length in Hperm. rewrite Hlen in Hperm.
    rewrite (drop_S _ y) by done. rewrite drop_ge by lia. done. }
  rewrite Hdrop. apply Permutation_cons_append.
Qed.

(** [heap.Pop] fails on the empty heap only. *)
Lemma heap_Pop_nonempty h :
  h <> [] -> exists x h1, GoHeap.Pop h = Some (x, h1).
Proof.
  intros Hh. unfold GoHeap.Pop. destruct (length h) as [|n] eqn:Hlen.
  { by destruct h. }
  set (h' := GoHeap.down (S n) (GoHeap.Swap h 0 n) 0 n).
  assert (Hperm : h' ≡ₚ h) by (unfold h'; by rewrite heap_down_perm, heap_Swap_perm).
  apply Permutation_length in Hperm. rewrite Hlen in Hperm.
  destruct (lookup_lt_is_Some_2 h' n) as [y Hy]; [lia|].
  exists y, (take n h'). by rewrite Hy.
Qed.

Lemma total_burst_app l1 l2 :
  total_burst (l1 ++ l2) = total_burst l1 + total_burst l2.
Proof. induction l1 as [|p l1 IH]; simpl; lia. Qed.

(** ** Priority: the loop ends *)

Lemma total_burst_nonneg ps :
  Forall (fun p => 0 < BurstDuration p < MaxInt64) ps -> 0 <= total_burst ps.
Proof. induction 1; simpl; lia. Qed.

Lemma bursts_bounded_Forall ps :
  bursts_bounded ps <-> Forall (fun p => 0 < BurstDuration p < MaxInt64) ps.
Proof. unfold bursts_bounded. by rewrite Forall_forall. Qed.

(** The inner loop moves the first [k] pending processes into the heap. *)
Lemma push_arrivals_spec t : forall pending h idx h' idx',
  Prio.push_arrivals t pending h idx = (h', idx') ->
  exists k, idx' = (idx + k)%nat /\ h' ≡ₚ h ++ take k pending.
Proof.
  induction pending as [|p pending IH]; intros h idx h' idx'; simpl.
  - intros [= <- <-]. exists 0%nat. by rewrite Nat.add_0_r, app_nil_r.
  - case_decide.
    + intros Hrec. destruct (IH _ _ _ _ Hrec) as (k & -> & Hperm).
      exists (S k). split; [lia|]. simpl.
      rewrite Hperm, heap_Push_perm. simpl. apply Permutation_middle.
    + intros [= <- <-]. exists 0%nat. by rewrite Nat.add_0_r, app_nil_r.
Qed.

(** Running one unit: a process leaves the heap, and comes back with one
    unit less unless it is complete. *)
Lemma prio_run_unit_continue m st t h inserted st' :
  Forall (fun p => 0 < BurstDuration p < MaxInt64) h ->
  Prio.run_unit m st t h inserted = Prio.Continue st' ->
  prio_inv st' /\
  total_burst (Prio.minHeap st') = total_burst h - 1 /\
  Prio.insertedProcessIdx st' = inserted.
Proof.
  intros Hh. unfold Prio.run_unit.
  destruct (GoHeap.Pop h) as [[x h1]|] eqn:Hpop; [|done].
  apply heap_Pop_perm in Hpop.
  rewrite <- Hpop in Hh. apply Forall_cons in Hh as [Hx Hh1].
  rewrite <- (total_burst_perm _ _ Hpop). simpl.
  rewrite sub64_pred by lia.
  case_decide as Hz.
  - destruct (Prio.turnAroundTimes st !! _); [|done].
    destruct (Prio.waitingTimes st !! _); [|done].
    intros [= <-]. unfold prio_inv. simpl. split; [done|]. split; [lia|done].
  - intros [= <-]. unfold prio_inv. simpl.
    rewrite (total_burst_perm _ _ (heap_Push_perm _ _)).
    rewrite heap_Push_perm. simpl.
    split; [|split; [lia|done]].
    constructor; [simpl; lia|done].
Qed.

Lemma prio_step_continue ps m st st' :
  bursts_bounded ps -> prio_inv st ->
  Prio.step ps m st = Prio.Continue st' ->
  prio_inv st' /\ prio_measure ps st' = prio_measure ps st - 1.
Proof.
  intros Hb Hinv. unfold Prio.step.
  destruct (Prio.push_arrivals _ _ _ _) as [h inserted] eqn:Hpush.
  apply push_arrivals_spec in Hpush as (k & -> & Hperm).
  assert (Hh : Forall (fun p => 0 < BurstDuration p < MaxInt64) h).
  { rewrite Hperm. apply Forall_app. split; [done|].
    apply Forall_take, Forall_drop. by apply bursts_bounded_Forall. }
  assert (Hsum : total_burst h
                 + total_burst (drop (Prio.insertedProcessIdx st + k) ps)
                 = prio_measure ps st).
  { unfold prio_measure. rewrite (total_burst_perm _ _ Hperm), total_burst_app.
    rewrite <- (take_drop k (drop (Prio.insertedProcessIdx st) ps)) at 2.
    rewrite total_burst_app, drop_drop. lia. }
  assert (Hrun : forall t,
             Prio.run_unit m st t h (Prio.insertedProcessIdx st + k)
               = Prio.Continue st' ->
             prio_inv st' /\ prio_measure ps st' = prio_measure ps st - 1).
  { intros t Hrun.
    destruct (prio_run_unit_continue _ _ _ _ _ _ Hh Hrun) as (Hinv' & Ht & Hi).
    split; [done|]. unfold prio_measure at 1. rewrite Ht, Hi. lia. }
  case_decide as Hempty.
  - case_decide; [|done].
    destruct (ps !! _); [|done]. apply Hrun.
  - apply Hrun.
Qed.

Lemma prio_measure_nonneg ps st :
  bursts_bounded ps -> prio_inv st -> 0 <= prio_measure ps st.
Proof.
  intros Hb Hinv. unfold prio_measure.
  pose proof (total_burst_nonneg _ Hinv).
  assert (0 <= total_burst (drop (Prio.insertedProcessIdx st) ps)).
  { apply total_burst_nonneg, Forall_drop. by apply bursts_bounded_Forall. }
  lia.
Qed.

(** The loop of Priority stops, with a result or with a panic, within
    [n + 1] iterations when at most [n] units of work are left. *)
Lemma prio_loop_halts ps m :
  bursts_bounded ps ->
  forall n st,
    prio_inv st -> prio_measure ps st <= Z.of_nat n ->
    Prio.loop (S n) ps m st <> Timeout.
Proof.
  intros Hb n. induction n as [|n IH]; intros st Hinv Hm; simpl.
  - destruct (Prio.step ps m st) as [st'| |] eqn:Hstep; try done.
    destruct (prio_step_continue _ _ _ _ Hb Hinv Hstep) as [Hinv' Hm'].
    pose proof (prio_measure_nonneg ps st' Hb Hinv'). lia.
  - destruct (Prio.step ps m st) as [st'| |] eqn:Hstep; try done.
    destruct (prio_step_continue _ _ _ _ Hb Hinv Hstep) as [Hinv' Hm'].
    apply IH; [done|lia].
Qed.

(** ** Termination of the four runs *)

Lemma well_bounded_bursts ps ps' :
  Forall well_bounded ps -> ps' ≡ₚ ps -> bursts_bounded ps'.
Proof.
  intros Hps Hperm p Hp. rewrite Hperm in Hp.
  rewrite Forall_forall in Hps. by destruct (Hps p Hp).
Qed.

Lemma fcfs_schedule_length ps :
  length (outSchedule (FCFSSchedule ps).2) = length ps.
Proof.
  simpl. unfold FCFS.run.
  assert (H : forall ps st,
             length (FCFS.schedule (fold_left FCFS.iter ps st))
             = (length (FCFS.schedule st) + length ps)%nat).
  { clear ps. induction ps as [|q ps IH]; intros st; simpl; [lia|].
    rewrite IH. simpl. rewrite length_app. simpl. lia. }
  by rewrite H.
Qed.

Lemma length_le_total_burst ps :
  Forall (fun p => 0 < BurstDuration p) ps ->
  Z.of_nat (length ps) <= total_burst ps.
Proof. induction 1; simpl; lia. Qed.

(** The batch with a single process of burst [MaxInt64]: the scan of SJF
    starts from [MaxInt64] and looks for a smaller remaining time, so the
    process is never chosen and every iteration sets the clock to 0. *)
Lemma sjf_max_burst_loops fuel :
  SJF.loop fuel [proc 1 MaxInt64 0 0] (SJF.init [proc 1 MaxInt64 0 0])
  = Timeout.
Proof.
  induction fuel as [|fuel IH]; [done|].
  rewrite sjf_loop_unfold.
  replace (SJF.step [proc 1 MaxInt64 0 0] (SJF.init [proc 1 MaxInt64 0 0]))
    with (Some (SJF.init [proc 1 MaxInt64 0 0])) by (vm_compute; reflexivity).
  rewrite decide_True by (simpl; lia). exact IH.
Qed.

Lemma SJFSchedule_result sort fuel ps :
  (SJFSchedule sort fuel ps).2 =
  match SJF.loop fuel (sort ps) (SJF.init (sort ps)) with
  | Done st => Done (SJF.output (sort ps) st)
  | Panic => Panic
  | Timeout => Timeout
  end.
Proof. reflexivity. Qed.

Lemma SJFPrioritySchedule_result sort fuel ps :
  (SJFPrioritySchedule sort fuel ps).2 =
  match Prio.init (sort ps) with
  | None => Panic
  | Some st0 =>
      match Prio.loop fuel (sort ps) (Prio.mapIndex 0 (sort ps) ∅) st0 with
      | Done st => Done (Prio.output (sort ps) st)
      | Panic => Panic
      | Timeout => Timeout
      end
  end.
Proof. reflexivity. Qed.

(** ** SJF: the clock and the processes that have not arrived *)







(** * The claims of the specification *)

(** C1. The row invariant [TurnaroundTime = BurstDuration + WaitTime] and
    [CompletionTime = ArrivalTime + TurnaroundTime] holds for FCFS and SJF
    ([fcfs_rows_consistent], [sjf_rows_consistent]) and fails for Priority:
    on the batch of two processes with bursts 4 and 2, priorities 2 and 1,
    both arriving at 0, Priority reports wait 6, turnaround 6, exit 10 for
    process 1 and wait 2, turnaround 2, exit 4 for process 2, and neither
    equation holds of either row. *)
Theorem C1_priority_rows_break_invariant (fuel : nat) :
  exists out,
    (SJFPrioritySchedule insertionSort (7 + fuel) batch_two_priorities).2
      = Done out /\
    rows out = [mkRow 1 2 4 0 6 6 10; mkRow 2 1 2 0 2 2 4] /\
    Forall (fun r => rowTurnaround r <> rowBurst r + rowWait r /\
                     rowCompletion r <> rowArrival r + rowTurnaround r /\
                     ~ row_consistent r)
           (rows out).
Proof.
  eexists. split; [vm_compute; reflexivity|]. split; [reflexivity|].
  assert (Hrow : forall id pr b a w t c,
             t <> b + w -> c <> a + t -> in_int64 (b + w) ->
             let r := mkRow id pr b a w t c in
             rowTurnaround r <> rowBurst r + rowWait r /\
             rowCompletion r <> rowArrival r + rowTurnaround r /\
             ~ row_consistent r).
  { intros id pr b a w t c Ht Hc Hbw r. split; [done|]. split; [done|].
    intros [H _]. simpl in H. unfold add64 in H.
    rewrite wrap64_id in H; done. }
  constructor; [|constructor; [|constructor]];
    apply Hrow; unfold in_int64, MinInt64, MaxInt64; lia.
Qed.

(** C2. Priority does not survive an idle gap: on the batch of two
    processes of burst 1 arriving at 0 and at 5 (non-empty, positive
    bursts, arrivals not negative) the second iteration finds the heap
    empty, moves the clock to 5 and pops the empty heap, and the run ends
    in a panic. *)
Theorem C2_priority_gap_panics (fuel : nat) :
  batch_gap <> [] /\
  Forall well_formed batch_gap /\
  (SJFPrioritySchedule insertionSort (2 + fuel) batch_gap).2 = Panic.
Proof.
  split; [done|]. split.
  - repeat constructor; simpl; lia.
  - vm_compute. reflexivity.
Qed.

(** C3. Waits can be negative under FCFS and under Priority: for a single
    process of burst 3 arriving at 5, FCFS reports the wait -5, and for a
    single process of burst 1 arriving at 5, Priority reports the wait -4.
    (SJF clamps: [sjf_rows_wait_nonneg].) *)
Theorem C3_negative_waits (fuel : nat) :
  Forall well_formed batch_late /\
  rowWait <$> rows (FCFSSchedule batch_late).2 = [-5] /\
  exists out,
    (SJFPrioritySchedule insertionSort (2 + fuel) [proc 1 1 5 0]).2 = Done out /\
    rowWait <$> rows out = [-4].
Proof.
  split; [repeat constructor; simpl; lia|]. split; [reflexivity|].
  eexists. split; vm_compute; reflexivity.
Qed.

(** C4. FCFS does not clamp the wait: for a single process of burst 3
    arriving at 5 the service time before it is 0, so
    [max(0, serviceTime - arrivalTime)] is 0, and the wait that FCFS
    reports is -5 (with turnaround -2 and exit 3). What FCFS computes in
    general, carry-over included, is described by [fcfs_wait_of_process]. *)
Theorem C4_fcfs_wait_not_clamped :
  exists r,
    rows (FCFSSchedule batch_late).2 = [r] /\
    r = mkRow 1 0 3 5 (-5) (-2) 3 /\
    0 < rowArrival r /\
    rowWait r <> Z.max 0 (FCFS.serviceTime (FCFS.run []) - rowArrival r).
Proof.
  eexists. split; [reflexivity|]. split; [reflexivity|].
  split; vm_compute; [reflexivity|discriminate].
Qed.

(** C5. On the batch of two processes with bursts 4 and 2, priorities 2 and
    1, both arriving at 0, Priority runs process 2 from 0 to 2 and process
    1 from 2 to 6, and reports the completion times 4 for process 2 and 10
    for process 1 (not 2 and 6). *)
Theorem C5_priority_two_processes (fuel : nat) :
  exists out,
    (SJFPrioritySchedule insertionSort (7 + fuel) batch_two_priorities).2
      = Done out /\
    outGantt out = [mkTimeSlice 2 0 2; mkTimeSlice 1 2 6] /\
    (fun r => (rowID r, rowCompletion r)) <$> rows out = [(1, 10); (2, 4)].
Proof. eexists. split; [vm_compute; reflexivity|]. split; reflexivity. Qed.



(** C7. The slices of the timeline are not always intervals that follow
    one another. SJF leaves [Stop] at 0 in the slice of a process that is
    interrupted (bursts 5 and 2 arriving at 2 and 3: the first slice starts
    at 2 and stops at 0); Priority writes the predicted end of the burst
    into [Stop], so the slice of an interrupted process overlaps the next
    one; FCFS starts the second of two processes arriving at 0 at time 0,
    inside the slice of the first. *)
Theorem C7_timeline_slices_not_intervals (fuel : nat) :
  (exists out,
     (SJFSchedule insertionSort (9 + fuel) batch_preempted).2 = Done out /\
     outGantt out =
       [mkTimeSlice 1 2 0; mkTimeSlice 2 3 5; mkTimeSlice 1 5 9] /\
     exists s, outGantt out !! 0%nat = Some s /\ Stop s < Start s) /\
  (exists out,
     (SJFPrioritySchedule insertionSort (7 + fuel) batch_preempted_priority).2
       = Done out /\
     outGantt out =
       [mkTimeSlice 1 0 4; mkTimeSlice 2 1 3; mkTimeSlice 1 3 6] /\
     overlap (mkTimeSlice 1 0 4) (mkTimeSlice 2 1 3)) /\
  outGantt (FCFSSchedule batch_same_arrival).2 =
    [mkTimeSlice 1 0 5; mkTimeSlice 2 0 8] /\
  overlap (mkTimeSlice 1 0 5) (mkTimeSlice 2 0 8).
Proof.
  split; [|split; [|split]].
  - eexists. split; [vm_compute; reflexivity|]. split; [reflexivity|].
    eexists. split; [reflexivity|]. simpl. lia.
  - eexists. split; [vm_compute; reflexivity|]. split; [reflexivity|].
    unfold overlap. simpl. lia.
  - reflexivity.
  - unfold overlap. simpl. lia.
Qed.

(** C8. The throughput of FCFS is computed from the completion time of the
    process served last, which need not be the latest one: for two
    processes of bursts 5 and 3 arriving at 0 the rows give the completion
    times 5 and 3 (the timeline ends at 8), the throughput is 2/3, and the
    process count divided by the time of the last completion is 2/5 (or
    2/8 by the timeline). *)
Theorem C8_fcfs_throughput_not_last_completion :
  batch_same_arrival <> [] /\
  Forall (fun p => 0 < BurstDuration p) batch_same_arrival /\
  rowCompletion <$> rows (FCFSSchedule batch_same_arrival).2 = [5; 3] /\
  Stop <$> outGantt (FCFSSchedule batch_same_arrival).2 = [5; 8] /\
  max_completion (rows (FCFSSchedule batch_same_arrival).2) = 5 /\
  (aveThroughput (FCFSSchedule batch_same_arrival).2 == 2 # 3)%Q /\
  ~ (aveThroughput (FCFSSchedule batch_same_arrival).2 ==
     inject_Z (outCount (FCFSSchedule batch_same_arrival).2) /
     inject_Z (max_completion (rows (FCFSSchedule batch_same_arrival).2)))%Q.
Proof.
  split; [done|]. split; [repeat constructor|].
  split; [reflexivity|]. split; [reflexivity|]. split; [reflexivity|].
  split; [reflexivity|]. vm_compute. discriminate.
Qed.


(** C10, as stated, fails for SJF: a single process arriving at 0 with
    burst 9223372036854775807 satisfies [ArrivalTime >= 0] and
    [BurstDuration > 0], and the run of SJF on it does not end, whatever
    the number of iterations allowed. *)
Lemma C10_sjf_max_burst_never_ends :
  Forall well_formed [proc 1 MaxInt64 0 0] /\
  forall fuel, (SJFSchedule insertionSort fuel [proc 1 MaxInt64 0 0]).2 = Timeout.
Proof.
  split.
  - repeat constructor; simpl; unfold MaxInt64; lia.
  - intros fuel. rewrite SJFSchedule_result.
    change (insertionSort [proc 1 MaxInt64 0 0]) with [proc 1 MaxInt64 0 0].
    by rewrite sjf_max_burst_loops.
Qed.

(** C10, amended. When every process has [ArrivalTime >= 0] and
    [0 < BurstDuration < MaxInt64], each of the four runs stops, and the
    number of iterations is bounded by the sum [work] of the bursts: FCFS
    makes one iteration per process, which is at most [work]; the loop of
    SJF ends within [2 * work + 1] iterations with every process complete
    and every remaining time at 0 (an iteration either takes one unit from
    one remaining time or only moves the clock, and is then followed by one
    that takes a unit); the loop of Priority stops within [work + 1]
    iterations, each but the last taking one unit from the burst of a
    process (whether it stops with a table or with the panic of the empty
    heap is not said here); Round-Robin does nothing. *)
Theorem C10_runs_halt (srt : SortSlice) (ps : list Process) :
  Forall well_bounded ps ->
  let work := Z.to_nat (total_burst ps) in
  (length (outSchedule (FCFSSchedule ps).2) = length ps /\
   (length ps <= work)%nat) /\
  (exists st,
      SJF.loop (2 * work + 1) (srt ps) (SJF.init (srt ps)) = Done st /\
      SJF.numOfCompletedProcesses st = length ps /\
      Forall (fun r => r = 0) (SJF.remainingTime st) /\
      (SJFSchedule srt (2 * work + 1) ps).2
        = Done (SJF.output (srt ps) st)) /\
  (SJFPrioritySchedule srt (work + 1) ps).2 <> Timeout /\
  (RRSchedule ps).2 = mkOutput [] [] 0 0 0 0.
Proof.
  intros Hps work.
  assert (Hb : bursts_bounded (srt ps)).
  { eapply well_bounded_bursts; [done|apply sort_by_arrival_perm]. }
  assert (Hpos : Forall (fun p => 0 < BurstDuration p) ps).
  { eapply Forall_impl; [exact Hps|]. by intros p (_ & ? & _). }
  assert (Htot : total_burst (srt ps) = total_burst ps).
  { apply total_burst_perm, sort_by_arrival_perm. }
  assert (Hwork : Z.of_nat work = total_burst ps).
  { unfold work. pose proof (length_le_total_burst ps Hpos). lia. }
  split; [|split; [|split]].
  - split; [apply fcfs_schedule_length|].
    pose proof (length_le_total_burst ps Hpos). lia.
  - destruct (sjf_loop_terminates (srt ps) (sort_by_arrival_sorted srt ps) Hb
                work (SJF.init (srt ps)))
      as (st & Hloop & Hinv & Hdone).
    { by apply sjf_inv_init. }
    { simpl. rewrite sum_rem_bursts. lia. }
    exists st. split; [done|]. split; [|split].
    + rewrite Hdone. apply Permutation_length, sort_by_arrival_perm.
    + apply count_zero_full.
      by rewrite <- (inv_completed _ _ Hinv), (inv_rem_len _ _ Hinv).
    + rewrite SJFSchedule_result. by rewrite Hloop.
  - rewrite SJFPrioritySchedule_result.
    destruct (Prio.init (srt ps)) as [st0|] eqn:Hinit; [|done].
    assert (Hst0 : prio_inv st0 /\ prio_measure (srt ps) st0 = total_burst ps).
    { unfold Prio.init in Hinit. destruct (srt ps !! 0%nat); [|done].
      simpl in Hinit. injection Hinit as <-.
      split; [by constructor|]. unfold prio_measure. simpl. rewrite drop_0, Htot. lia. }
    destruct Hst0 as [Hinv0 Hm0].
    pose proof (prio_loop_halts (srt ps) (Prio.mapIndex 0 (srt ps) ∅) Hb
                  work st0 Hinv0) as Hhalt.
    replace (work + 1)%nat with (S work) by lia.
    destruct (Prio.loop (S work) _ _ st0); try done.
    exfalso. apply Hhalt; [lia|done].
  - done.
Qed.

(** The theorem of C10 on the batch with two processes of burst 1
    arriving at 0 and 5. *)
Lemma C10_runs_halt_witness :
  Forall well_bounded batch_gap /\
  (exists st,
      SJF.loop 5 (insertionSort batch_gap) (SJF.init (insertionSort batch_gap))
        = Done st /\
      SJF.numOfCompletedProcesses st = 2%nat) /\
  (SJFPrioritySchedule insertionSort 3 batch_gap).2 <> Timeout.
Proof.
  assert (H : Forall well_bounded batch_gap).
  { repeat constructor; simpl; unfold MaxInt64; lia. }
  destruct (C10_runs_halt goInsertionSort batch_gap H)
    as (_ & (st & Hloop & Hdone & _ & _) & Hprio & _).
  split; [exact H|]. split; [|exact Hprio].
  exists st. split; [exact Hloop|exact Hdone].
Defined.
(** * Further properties of the code *)

(** ** FCFS: the table and the timeline *)

Lemma fcfs_run_snoc pre p :
  FCFS.run (pre ++ [p]) = FCFS.iter (FCFS.run pre) p.
Proof. unfold FCFS.run. by rewrite fold_left_app. Qed.

Lemma fcfs_service_time pre :
  FCFS.serviceTime (FCFS.run pre) = service_after pre.
Proof.
  unfold FCFS.run, service_after.
  assert (H : forall st,
             FCFS.serviceTime (fold_left FCFS.iter pre st)
             = fold_left add64 (BurstDuration <$> pre) (FCFS.serviceTime st)).
  { induction pre as [|q pre IH]; intros st; csimpl; [done|]. by rewrite IH. }
  apply H.
Qed.

Lemma fcfs_fold_schedule ps : forall st,
  FCFS.schedule (fold_left FCFS.iter ps st)
  = FCFS.schedule st
    ++ drop (length (FCFS.schedule st))
            (FCFS.schedule (fold_left FCFS.iter ps st)) /\
  FCFS.gantt (fold_left FCFS.iter ps st)
  = FCFS.gantt st
    ++ drop (length (FCFS.gantt st))
            (FCFS.gantt (fold_left FCFS.iter ps st)).
Proof.
  induction ps as [|p ps IH]; intros st; simpl.
  - by rewrite !drop_all, !app_nil_r.
  - destruct (IH (FCFS.iter st p)) as [Hs Hg]. simpl in Hs, Hg.
    rewrite length_app in Hs, Hg. simpl in Hs, Hg.
    split.
    + rewrite Hs at 1. rewrite <- app_assoc. f_equal.
      rewrite Hs at 2. rewrite <- app_assoc.
      by rewrite drop_app_length.
    + rewrite Hg at 1. rewrite <- app_assoc. f_equal.
      rewrite Hg at 2. rewrite <- app_assoc.
      by rewrite drop_app_length.
Qed.

(** The rows and slices written for a prefix of the batch stay as they
    are while the rest of the batch is served. *)
Lemma fcfs_run_app_lookup pre suf :
  (forall i o, FCFS.schedule (FCFS.run pre) !! i = Some o ->
               FCFS.schedule (FCFS.run (pre ++ suf)) !! i = Some o) /\
  (forall i s, FCFS.gantt (FCFS.run pre) !! i = Some s ->
               FCFS.gantt (FCFS.run (pre ++ suf)) !! i = Some s).
Proof.
  unfold FCFS.run. rewrite fold_left_app.
  destruct (fcfs_fold_schedule suf (fold_left FCFS.iter pre FCFS.init))
    as [Hs Hg].
  split.
  - intros i o Hi. rewrite Hs. by apply lookup_app_l_Some.
  - intros i s Hi. rewrite Hg. by apply lookup_app_l_Some.
Qed.

Lemma fcfs_run_lengths ps :
  length (FCFS.schedule (FCFS.run ps)) = length ps /\
  length (FCFS.gantt (FCFS.run ps)) = length ps.
Proof.
  induction ps as [|p ps IH] using rev_ind; [done|].
  rewrite fcfs_run_snoc. simpl. rewrite !length_app. simpl. lia.
Qed.

(** What FCFS writes for the process that follows [pre]. *)
Lemma fcfs_entry pre p suf :
  let st := FCFS.run pre in
  let w := if 0 <? ArrivalTime p
           then sub64 (FCFS.serviceTime st) (ArrivalTime p)
           else FCFS.waitingTime st in
  FCFS.schedule (FCFS.run (pre ++ p :: suf)) !! length pre
  = Some (Some (mkRow (ProcessID p) (Priority p) (BurstDuration p)
                      (ArrivalTime p) w (add64 (BurstDuration p) w)
                      (add64 (add64 (BurstDuration p) (ArrivalTime p)) w)))
  /\
  FCFS.gantt (FCFS.run (pre ++ p :: suf)) !! length pre
  = Some (mkTimeSlice (ProcessID p) (add64 w (ArrivalTime p))
                      (add64 (FCFS.serviceTime st) (BurstDuration p))).
Proof.
  intros st w.
  replace (pre ++ p :: suf) with ((pre ++ [p]) ++ suf)
    by (by rewrite <- app_assoc).
  destruct (fcfs_run_app_lookup (pre ++ [p]) suf) as [Hs Hg].
  destruct (fcfs_run_lengths pre) as [Hls Hlg].
  split.
  - apply Hs. rewrite fcfs_run_snoc. simpl.
    rewrite lookup_app_r by lia. by rewrite Hls, Nat.sub_diag.
  - apply Hg. rewrite fcfs_run_snoc. simpl.
    rewrite lookup_app_r by lia. by rewrite Hlg, Nat.sub_diag.
Qed.

Lemma fcfs_schedule_all_some ps :
  FCFS.schedule (FCFS.run ps) = Some <$> omap id (FCFS.schedule (FCFS.run ps)).
Proof.
  induction ps as [|p ps IH] using rev_ind; [done|].
  rewrite fcfs_run_snoc. simpl. rewrite omap_app, fmap_app. simpl.
  by rewrite <- IH.
Qed.

(** X1. FCFS is order-preserving: it writes one row and one slice per
    process, in the order of the batch it is given; no row is left empty,
    row [i] carries the id, priority, burst and arrival of process [i],
    and slice [i] its id. *)
Theorem fcfs_table_in_input_order (ps : list Process) :
  outSchedule (FCFSSchedule ps).2 = Some <$> rows (FCFSSchedule ps).2 /\
  row_key <$> rows (FCFSSchedule ps).2 = process_key <$> ps /\
  PID <$> outGantt (FCFSSchedule ps).2 = ProcessID <$> ps.
Proof.
  split; [apply fcfs_schedule_all_some|]. unfold rows. simpl.
  induction ps as [|p ps IH] using rev_ind; [done|].
  rewrite fcfs_run_snoc. simpl.
  rewrite omap_app, !fmap_app. simpl.
  destruct IH as [-> ->]. done.
Qed.

(** X2. The wait rule of FCFS, as the code has it. The wait of the first
    process is [0 - ArrivalTime] when its arrival time is positive and 0
    otherwise. The wait of a process that follows another is the service
    time (the sum of the bursts served before it) minus its arrival time
    when its arrival time is positive, negative or not, and otherwise the
    wait of the process before it. *)
Theorem fcfs_wait_rule (pre : list Process) (q p : Process)
        (suf : list Process) :
  (exists r,
      rows (FCFSSchedule (p :: suf)).2 !! 0%nat = Some r /\
      rowWait r = if 0 <? ArrivalTime p then sub64 0 (ArrivalTime p) else 0)
  /\
  (exists rq rp,
      rows (FCFSSchedule (pre ++ q :: p :: suf)).2 !! length pre = Some rq /\
      rows (FCFSSchedule (pre ++ q :: p :: suf)).2 !! S (length pre)
        = Some rp /\
      rowWait rp = if 0 <? ArrivalTime p
                   then sub64 (service_after (pre ++ [q])) (ArrivalTime p)
                   else rowWait rq).
Proof.
  assert (Hrows : forall ps i r,
             FCFS.schedule (FCFS.run ps) !! i = Some (Some r) ->
             rows (FCFSSchedule ps).2 !! i = Some r).
  { intros ps i r. unfold rows. simpl.
    rewrite (fcfs_schedule_all_some ps) at 1.
    rewrite list_lookup_fmap.
    destruct (omap id (FCFS.schedule (FCFS.run ps)) !! i); by intros [= ->]. }
  split.
  - destruct (fcfs_entry [] p suf) as [Hs _]. simpl in Hs.
    eexists. split; [apply Hrows; exact Hs|]. done.
  - destruct (fcfs_entry pre q (p :: suf)) as [Hq _].
    destruct (fcfs_entry (pre ++ [q]) p suf) as [Hp _].
    rewrite <- app_assoc in Hp. simpl in Hp.
    rewrite length_app, Nat.add_1_r in Hp.
    eexists. eexists. split; [apply Hrows; exact Hq|].
    split; [apply Hrows; exact Hp|]. simpl.
    rewrite fcfs_service_time, fcfs_run_snoc. done.
Qed.

(** X3. The timeline of FCFS never shows idle time: the slice of a process
    stops at the sum of the bursts served up to and including it, and,
    when its arrival time is positive, starts at the sum of the bursts
    served before it, which is where the slice before it stopped, however
    late the process arrives. *)
Theorem fcfs_timeline_has_no_idle_time (pre : list Process) (p : Process)
        (suf : list Process) :
  exists s,
    outGantt (FCFSSchedule (pre ++ p :: suf)).2 !! length pre = Some s /\
    PID s = ProcessID p /\
    Stop s = service_after (pre ++ [p]) /\
    (0 < ArrivalTime p -> Start s = service_after pre).
Proof.
  destruct (fcfs_entry pre p suf) as [_ Hg].
  eexists. split; [exact Hg|]. simpl. split; [done|].
  rewrite <- !fcfs_service_time, fcfs_run_snoc. split; [done|].
  intros Harr. apply Z.ltb_lt in Harr. rewrite Harr.
  unfold add64, sub64. rewrite wrap64_add_l.
  replace (FCFS.serviceTime (FCFS.run pre) - ArrivalTime p + ArrivalTime p)
    with (FCFS.serviceTime (FCFS.run pre)) by lia.
  apply wrap64_id. rewrite fcfs_service_time. unfold service_after.
  assert (H : forall l a, in_int64 a -> in_int64 (fold_left add64 l a)).
  { induction l as [|x l IH]; intros a Ha; simpl; [done|].
    apply IH, wrap64_range. }
  apply H. unfold in_int64, MinInt64, MaxInt64. lia.
Qed.

(** X4. Every row of FCFS satisfies, in the arithmetic of [int64],
    [TurnaroundTime = BurstDuration + WaitTime] and
    [CompletionTime = ArrivalTime + TurnaroundTime]. *)
Theorem fcfs_rows_keep_row_invariant (ps : list Process) :
  Forall row_consistent (rows (FCFSSchedule ps).2).
Proof. apply fcfs_rows_consistent. Qed.


(** ** SJF: the shape of an iteration *)

Lemma sjf_lengths_init ps : sjf_lengths ps (SJF.init ps).
Proof.
  unfold sjf_lengths. simpl.
  by rewrite length_fmap, !length_replicate.
Qed.

(** One iteration, for any batch: when the scan finds no remaining time
    between 1 and [MaxInt64 - 1] among the arrived processes the clock is
    set to the arrival time of [processes[numOfCompletedProcesses]];
    otherwise the selected process [i] is given a unit, and if that was
    its last unit its row, its wait and the stop of the current slice are
    written. *)
Lemma sjf_step_shape ps st :
  sjf_lengths ps st ->
  (SJF.numOfCompletedProcesses st < length ps)%nat ->
  (exists p,
      ps !! SJF.numOfCompletedProcesses st = Some p /\
      (forall i q r, ps !! i = Some q -> SJF.remainingTime st !! i = Some r ->
                     ArrivalTime q <= SJF.currentTime st -> 0 < r ->
                     MaxInt64 <= r) /\
      SJF.step ps st =
        Some (SJF.mkState (SJF.currentIndex st) (ArrivalTime p)
                (SJF.lastCompletionTime st) (SJF.schedule st) (SJF.gantt st)
                (SJF.remainingTime st) (SJF.waitingTimes st)
                (SJF.numOfCompletedProcesses st)))
  \/
  (exists i p r,
      ps !! i = Some p /\ SJF.remainingTime st !! i = Some r /\
      0 < r < MaxInt64 /\ selected ps st i /\
      let t' := add64 (SJF.currentTime st) 1 in
      let g1 := sjf_gantt_open (SJF.gantt st) p (SJF.currentTime st) in
      if decide (r = 1) then
        exists g2,
          SJF.set_last_stop g1 t' = Some g2 /\
          SJF.step ps st =
            Some (SJF.mkState i t'
                    (if SJF.lastCompletionTime st <? rowCompletion (sjf_row p t')
                     then rowCompletion (sjf_row p t')
                     else SJF.lastCompletionTime st)
                    (<[i := Some (sjf_row p t')]> (SJF.schedule st))
                    g2
                    (<[i := 0]> (SJF.remainingTime st))
                    (<[i := sjf_wait p t']> (SJF.waitingTimes st))
                    (S (SJF.numOfCompletedProcesses st)))
      else
        SJF.step ps st =
          Some (SJF.mkState i t' (SJF.lastCompletionTime st)
                  (SJF.schedule st) g1
                  (<[i := r - 1]> (SJF.remainingTime st))
                  (SJF.waitingTimes st)
                  (SJF.numOfCompletedProcesses st))).
Proof.
  intros (Hlr & Hlw & Hls) Hk.
  destruct (sjf_scan_spec (SJF.currentTime st) (SJF.remainingTime st) ps 0
              (MaxInt64, SJF.currentIndex st))
    as (res & Hscan & Hcase).
  { rewrite Hlr. lia. }
  destruct Hcase
    as [[-> Hall]|(i & p & r & Hp & Hr & -> & Harr & Hpos & Hlt & Hmin)].
  - left.
    destruct (lookup_lt_is_Some_2 ps (SJF.numOfCompletedProcesses st))
      as [p Hp]; [done|].
    exists p. split; [done|]. split.
    { intros i q r Hq Hr Hqa Hpos. by apply (Hall i q r). }
    unfold SJF.step. rewrite Hscan. simpl. by rewrite Hp.
  - right. simpl in *. exists i, p, r.
    assert (Hsub : sub64 r 1 = r - 1) by (apply sub64_pred; lia).
    split; [done|]. split; [done|]. split; [lia|]. split.
    { split; [by exists p, r|].
      intros j ri rj (q & rq & Hq & Hrq & Hqa & Hqpos) Hri Hrj.
      rewrite Hr in Hri. rewrite Hrq in Hrj.
      injection Hri as <-. injection Hrj as <-.
      by apply (Hmin j q rq). }
    destruct (lookup_lt_is_Some_2 (SJF.waitingTimes st) i) as [w Hw].
    { rewrite Hlw. by eapply lookup_lt_Some. }
    destruct (lookup_lt_is_Some_2 (SJF.schedule st) i) as [o Ho].
    { rewrite Hls. by eapply lookup_lt_Some. }
    cbv zeta. case_decide as Hr1.
    + destruct (set_last_stop_some
                  (sjf_gantt_open (SJF.gantt st) p (SJF.currentTime st))
                  (add64 (SJF.currentTime st) 1))
        as [g2 Hg2]; [apply starts_slice_nonempty|].
      exists g2. split; [done|].
      unfold SJF.step. rewrite Hscan. simpl.
      rewrite decide_False by lia. rewrite Hp. simpl. rewrite Hr. simpl.
      rewrite Hsub. rewrite decide_True by lia.
      unfold sjf_gantt_open in Hg2. rewrite Hg2. simpl.
      rewrite Hw. simpl. rewrite Ho. simpl.
      by replace (r - 1) with 0 by lia.
    + unfold SJF.step. rewrite Hscan. simpl.
      rewrite decide_False by lia. rewrite Hp. simpl. rewrite Hr. simpl.
      rewrite Hsub. by rewrite decide_False by lia.
Qed.

Lemma sjf_lengths_step ps st st' :
  sjf_lengths ps st ->
  (SJF.numOfCompletedProcesses st < length ps)%nat ->
  SJF.step ps st = Some st' ->
  sjf_lengths ps st'.
Proof.
  intros Hl Hk Hstep.
  destruct (sjf_step_shape ps st Hl Hk)
    as [(p & _ & _ & Hs)|(i & p & r & _ & _ & _ & _ & Hs)].
  - rewrite Hs in Hstep. injection Hstep as <-. done.
  - cbv zeta in Hs. destruct Hl as (Hlr & Hlw & Hls). case_decide.
    + destruct Hs as (g2 & _ & Hs). rewrite Hs in Hstep.
      injection Hstep as <-. unfold sjf_lengths. simpl.
      by rewrite !length_insert.
    + rewrite Hs in Hstep. injection Hstep as <-. unfold sjf_lengths. simpl.
      by rewrite !length_insert.
Qed.

Lemma sjf_reachable_lengths ps st :
  SJFSpec.reachable ps st -> sjf_lengths ps st.
Proof.
  induction 1 as [|st st' _ IH Hk Hstep].
  - apply sjf_lengths_init.
  - by eapply sjf_lengths_step.
Qed.

Lemma sjf_reachable_completed_le ps st :
  SJFSpec.reachable ps st ->
  (SJF.numOfCompletedProcesses st <= length ps)%nat.
Proof.
  induction 1 as [|st st1 Hreach IH Hk Hstep]; simpl; [lia|].
  destruct (sjf_step_shape ps st (sjf_reachable_lengths _ _ Hreach) Hk)
    as [(p & _ & _ & Hs)|(i & p & r & _ & _ & _ & _ & Hs)].
  - rewrite Hs in Hstep. injection Hstep as <-. simpl. lia.
  - cbv zeta in Hs. case_decide.
    + destruct Hs as (g2 & _ & Hs). rewrite Hs in Hstep.
      injection Hstep as <-. simpl. lia.
    + rewrite Hs in Hstep. injection Hstep as <-. simpl. lia.
Qed.

(** The state in which the loop ends is a state of the run, and every
    process is complete in it. *)
Lemma sjf_loop_reachable ps fuel : forall st st',
  SJFSpec.reachable ps st ->
  SJF.loop fuel ps st = Done st' ->
  SJFSpec.reachable ps st' /\
  SJF.numOfCompletedProcesses st' = length ps.
Proof.
  induction fuel as [|fuel IH]; intros st st' Hreach; simpl; [done|].
  case_decide as Hk.
  - destruct (SJF.step ps st) as [st1|] eqn:Hstep; [|done].
    apply IH. by eapply SJFSpec.reach_step.
  - intros [= <-]. split; [done|].
    pose proof (sjf_reachable_completed_le ps st Hreach). lia.
Qed.

(** ** SJF: the table *)

Lemma omap_insert_empty_slot (sched : list (option ScheduleRow)) i row :
  sched !! i = Some None ->
  omap id (<[i := Some row]> sched) ≡ₚ row :: omap id sched.
Proof.
  revert i. induction sched as [|o sched IH]; intros [|i] Hi; simplify_eq/=.
  - done.
  - destruct o as [r|]; simpl.
    + rewrite (IH i Hi). apply Permutation_swap.
    + by apply IH.
Qed.

Lemma max_completion_perm l l' :
  l ≡ₚ l' -> max_completion l = max_completion l'.
Proof.
  induction 1 as [|r l l' _ IH|r r' l|l l' l'' _ IH1 _ IH2]; simpl; lia.
Qed.

Lemma max_completion_ge l r : r ∈ l -> rowCompletion r <= max_completion l.
Proof.
  induction l as [|x l IH]; intros Hr.
  - by apply elem_of_nil in Hr.
  - apply elem_of_cons in Hr as [->|Hr]; simpl; [lia|].
    specialize (IH Hr). lia.
Qed.

Lemma ltb_max a b : (if a <? b then b else a) = Z.max b a.
Proof. destruct (Z.ltb_spec a b); lia. Qed.

Lemma sjf_table_inv_init ps : sjf_table_inv ps (SJF.init ps).
Proof.
  assert (Hnone : omap id (replicate (length ps) (@None ScheduleRow)) = []).
  { induction (length ps) as [|n IH]; simpl; [done|]. exact IH. }
  split; simpl.
  - intros i r Hr _. apply lookup_replicate_2.
    apply lookup_lt_Some in Hr. by rewrite length_fmap in Hr.
  - intros i row Hi. by apply lookup_replicate_1 in Hi as [? _].
  - by rewrite Hnone.
  - by rewrite Hnone.
Qed.

Lemma sjf_table_inv_step ps st st' :
  sjf_lengths ps st ->
  (SJF.numOfCompletedProcesses st < length ps)%nat ->
  sjf_table_inv ps st ->
  SJF.step ps st = Some st' ->
  sjf_table_inv ps st'.
Proof.
  intros Hl Hk [Hun Hkeys Hcount Hlast] Hstep.
  destruct (sjf_step_shape ps st Hl Hk)
    as [(p & _ & _ & Hs)|(i & p & r & Hp & Hr & Hrange & _ & Hs)].
  { rewrite Hs in Hstep. injection Hstep as <-. by split. }
  cbv zeta in Hs. case_decide as Hr1.
  - destruct Hs as (g2 & _ & Hs). rewrite Hs in Hstep. injection Hstep as <-.
    assert (Hslot : SJF.schedule st !! i = Some None).
    { apply (Hun i r); [done|lia]. }
    pose proof (omap_insert_empty_slot _ _
                  (sjf_row p (add64 (SJF.currentTime st) 1)) Hslot) as Hperm.
    split; simpl.
    + intros j rj Hj Hne. destruct (decide (i = j)) as [->|Hij].
      * rewrite list_lookup_insert_eq in Hj by (by eapply lookup_lt_Some).
        by injection Hj as <-.
      * rewrite list_lookup_insert_ne in Hj by done.
        rewrite list_lookup_insert_ne by done. by apply (Hun j rj).
    + intros j row Hj. destruct (decide (i = j)) as [->|Hij].
      * rewrite list_lookup_insert_eq in Hj by (by eapply lookup_lt_Some).
        injection Hj as <-. by exists p.
      * rewrite list_lookup_insert_ne in Hj by done. by apply Hkeys.
    + rewrite (Permutation_length Hperm). simpl. by rewrite Hcount.
    + rewrite (max_completion_perm _ _ Hperm).
      simpl. rewrite <- Hlast. apply ltb_max.
  - rewrite Hs in Hstep. injection Hstep as <-. split; simpl; try done.
    intros j rj Hj Hne. destruct (decide (i = j)) as [->|Hij].
    + apply (Hun j r); [done|lia].
    + rewrite list_lookup_insert_ne in Hj by done. by apply (Hun j rj).
Qed.

Lemma sjf_reachable_table ps st :
  SJFSpec.reachable ps st -> sjf_table_inv ps st.
Proof.
  induction 1 as [|st st' Hreach IH Hk Hstep].
  - apply sjf_table_inv_init.
  - eapply sjf_table_inv_step; [|exact Hk|exact IH|exact Hstep].
    by apply sjf_reachable_lengths.
Qed.

(** A table with as many rows as slots has no empty slot. *)
Lemma omap_full (sched : list (option ScheduleRow)) :
  length (omap id sched) = length sched -> sched = Some <$> omap id sched.
Proof.
  induction sched as [|o sched IH]; csimpl; [done|].
  assert (Hle : (length (omap id sched) <= length sched)%nat).
  { clear. induction sched as [|[r|] sched IH]; csimpl; lia. }
  destruct o as [r|]; csimpl; intros Hlen; [|lia].
  f_equal. apply IH. lia.
Qed.

(** What [SJFSchedule] returns is the state in which its loop ends. *)
Lemma SJFSchedule_done sort fuel ps out :
  (SJFSchedule sort fuel ps).2 = Done out ->
  exists st,
    SJFSpec.reachable (sort ps) st /\
    SJF.numOfCompletedProcesses st = length (sort ps) /\
    out = SJF.output (sort ps) st.
Proof.
  rewrite SJFSchedule_result.
  destruct (SJF.loop _ _ _) as [st| |] eqn:Hloop; intros [= <-].
  exists st.
  destruct (sjf_loop_reachable _ _ _ _ (SJFSpec.reach_init _) Hloop).
  done.
Qed.

(** X5. When SJF returns, its table is complete and in the order of the
    sorted slice, for any batch: no row is left empty, and row [i] carries
    the id, priority, burst and arrival of the process at index [i] of the
    slice after sorting. *)
Theorem sjf_table_complete_in_sorted_order
        (sort : list Process -> list Process) (fuel : nat)
        (ps : list Process) (out : Output) :
  (SJFSchedule sort fuel ps).2 = Done out ->
  outSchedule out = Some <$> rows out /\
  row_key <$> rows out = process_key <$> sort ps.
Proof.
  intros Hout.
  destruct (SJFSchedule_done _ _ _ _ Hout) as (st & Hreach & Hdone & ->).
  pose proof (sjf_reachable_table _ _ Hreach) as [_ Hkeys Hcount _].
  pose proof (sjf_reachable_lengths _ _ Hreach) as (_ & _ & Hls).
  unfold rows. simpl.
  assert (Hfull : SJF.schedule st = Some <$> omap id (SJF.schedule st)).
  { apply omap_full. by rewrite <- Hcount, Hdone, Hls. }
  split; [done|].
  apply list_eq. intros i. rewrite !list_lookup_fmap.
  destruct (omap id (SJF.schedule st) !! i) as [row|] eqn:Hrow; simpl.
  - assert (Hi : SJF.schedule st !! i = Some (Some row)).
    { rewrite Hfull, list_lookup_fmap, Hrow. done. }
    destruct (Hkeys i row Hi) as (p & -> & ->). done.
  - apply lookup_ge_None in Hrow.
    assert (Hlen : length (omap id (SJF.schedule st)) = length (sort ps)).
    { by rewrite <- Hcount. }
    rewrite (proj2 (lookup_ge_None (sort ps) i)); [done|lia].
Qed.

(** X6. The throughput of SJF is the process count divided by the latest
    completion time of the table, for any batch: [lastCompletionTime] is
    the largest [CompletionTime] among the rows (0 when there is none), and
    the count is the length of the batch. *)
Theorem sjf_throughput_uses_latest_completion
        (sort : list Process -> list Process) (fuel : nat)
        (ps : list Process) (out : Output) :
  (SJFSchedule sort fuel ps).2 = Done out ->
  outLastCompletionTime out = max_completion (rows out) /\
  Forall (fun r => rowCompletion r <= outLastCompletionTime out) (rows out) /\
  outCount out = Z.of_nat (length (sort ps)) /\
  aveThroughput out
  = (inject_Z (Z.of_nat (length (sort ps)))
     / inject_Z (max_completion (rows out)))%Q.
Proof.
  intros Hout.
  destruct (SJFSchedule_done _ _ _ _ Hout) as (st & Hreach & Hdone & ->).
  pose proof (sjf_reachable_table _ _ Hreach) as [_ _ _ Hlast].
  unfold rows, aveThroughput. simpl. rewrite Hlast.
  split; [done|]. split; [|done].
  apply Forall_forall. intros r Hr. by apply max_completion_ge.
Qed.

(** ** SJF: exact times *)













(** X5 on the batch with bursts 5 and 2 arriving at 2 and 3. *)
Lemma sjf_table_complete_in_sorted_order_witness :
  exists out,
    (SJFSchedule insertionSort 9 batch_preempted).2 = Done out /\
    outSchedule out = Some <$> rows out /\
    row_key <$> rows out = process_key <$> insertionSort batch_preempted.
Proof.
  eexists. split; [vm_compute; reflexivity|].
  apply (sjf_table_complete_in_sorted_order insertionSort 9 batch_preempted).
  vm_compute. reflexivity.
Defined.

(** X6 on the same batch: the latest completion is 9. *)
Lemma sjf_throughput_uses_latest_completion_witness :
  exists out,
    (SJFSchedule insertionSort 9 batch_preempted).2 = Done out /\
    outLastCompletionTime out = max_completion (rows out) /\
    outLastCompletionTime out = 9.
Proof.
  eexists. split; [vm_compute; reflexivity|].
  split; [|vm_compute; reflexivity].
  apply (sjf_throughput_uses_latest_completion insertionSort 9
           batch_preempted).
  vm_compute. reflexivity.
Defined.


(** ** SJF: the totals *)

Lemma sjf_waits_recorded_step ps st st' :
  sjf_lengths ps st ->
  (SJF.numOfCompletedProcesses st < length ps)%nat ->
  sjf_waits_recorded st ->
  SJF.step ps st = Some st' ->
  sjf_waits_recorded st'.
Proof.
  intros Hl Hk Hrec Hstep. pose proof Hl as (Hlr & Hlw & Hls).
  destruct (sjf_step_shape ps st Hl Hk)
    as [(p & _ & _ & Hs)|(i & p & r & Hp & Hr & Hrange & _ & Hs)].
  { rewrite Hs in Hstep. by injection Hstep as <-. }
  cbv zeta in Hs. case_decide as Hr1.
  - destruct Hs as (g2 & _ & Hs). rewrite Hs in Hstep. injection Hstep as <-.
    intros j row. cbn [SJF.schedule SJF.waitingTimes].
    pose proof (lookup_lt_Some _ _ _ Hp) as Hi.
    destruct (decide (i = j)) as [->|Hij].
    + rewrite !list_lookup_insert_eq by lia.
      intros [= <-]. split; [done|]. apply add64_comm.
    + rewrite !list_lookup_insert_ne by done. apply Hrec.
  - rewrite Hs in Hstep. by injection Hstep as <-.
Qed.

Lemma sjf_reachable_waits ps st :
  SJFSpec.reachable ps st -> sjf_waits_recorded st.
Proof.
  induction 1 as [|st st' Hreach IH Hk Hstep].
  - intros i row Hrow. simpl in Hrow.
    by apply lookup_replicate_1 in Hrow as [? _].
  - eapply sjf_waits_recorded_step; [|exact Hk|exact IH|exact Hstep].
    by apply sjf_reachable_lengths.
Qed.

Lemma fold_left_add64_fmap {A} (f : A -> Z) l : forall a,
  fold_left (fun result x => add64 result (f x)) l a
  = fold_left add64 (f <$> l) a.
Proof. induction l as [|x l IH]; intros a; csimpl; [done|]. apply IH. Qed.

(** X8. The two averages that SJF prints are those of the columns of its
    table: the total of the waits is the sum of the Wait column and the
    total of the turnarounds is the sum of the Turnaround column, both
    summed in [int64] in the order of the rows, for any batch. *)
Theorem sjf_totals_are_column_sums
        (sort : list Process -> list Process) (fuel : nat)
        (ps : list Process) (out : Output) :
  (SJFSchedule sort fuel ps).2 = Done out ->
  outTotalWait out = fold_left add64 (rowWait <$> rows out) 0 /\
  outTotalTurnaround out = fold_left add64 (rowTurnaround <$> rows out) 0.
Proof.
  intros Hout.
  destruct (SJFSchedule_done _ _ _ _ Hout) as (st & Hreach & Hdone & ->).
  pose proof (sjf_reachable_table _ _ Hreach) as [_ Hkeys Hcount _].
  pose proof (sjf_reachable_lengths _ _ Hreach) as (_ & Hlw & Hls).
  pose proof (sjf_reachable_waits _ _ Hreach) as Hrec.
  assert (Hfull : SJF.schedule st = Some <$> omap id (SJF.schedule st)).
  { apply omap_full. by rewrite <- Hcount, Hdone, Hls. }
  unfold rows. cbn [SJF.output outSchedule outTotalWait outTotalTurnaround].
  set (rs := omap id (SJF.schedule st)) in *.
  assert (Hlen : length rs = length (sort ps)).
  { by rewrite <- Hls, Hfull, length_fmap. }
  assert (Hrow : forall i row, rs !! i = Some row ->
                               SJF.schedule st !! i = Some (Some row)).
  { intros i row Hi. by rewrite Hfull, list_lookup_fmap, Hi. }
  assert (Hwaits : SJF.waitingTimes st = rowWait <$> rs).
  { apply list_eq. intros i. rewrite list_lookup_fmap.
    destruct (rs !! i) as [row|] eqn:Hi; simpl.
    - by destruct (Hrec i row (Hrow i row Hi)).
    - apply lookup_ge_None. apply lookup_ge_None in Hi. lia. }
  split.
  - unfold SJF.totalWaitingTime. by rewrite Hwaits.
  - unfold SJF.totalTurnAroundTime.
    rewrite (fold_left_add64_fmap
               (fun pw : Process * Z => add64 (BurstDuration pw.1) pw.2)).
    f_equal. apply list_eq. intros i. rewrite !list_lookup_fmap.
    rewrite lookup_zip_with. rewrite Hwaits, list_lookup_fmap.
    destruct (rs !! i) as [row|] eqn:Hi; simpl.
    + destruct (Hkeys i row (Hrow i row Hi)) as (p & Hp & Hkey).
      destruct (Hrec i row (Hrow i row Hi)) as [_ Htat].
      rewrite Hp. simpl. rewrite Htat. do 2 f_equal.
      unfold row_key, process_key in Hkey. congruence.
    + by destruct (sort ps !! i).
Qed.

(** X8 on the batch with bursts 5 and 2 arriving at 2 and 3. *)
Lemma sjf_totals_are_column_sums_witness :
  exists out,
    (SJFSchedule insertionSort 9 batch_preempted).2 = Done out /\
    outTotalWait out = fold_left add64 (rowWait <$> rows out) 0 /\
    outTotalTurnaround out = fold_left add64 (rowTurnaround <$> rows out) 0.
Proof.
  eexists. split; [vm_compute; reflexivity|].
  apply (sjf_totals_are_column_sums insertionSort 9 batch_preempted).
  vm_compute. reflexivity.
Defined.

(** ** Edges *)

Lemma sort_nil (srt : SortSlice) : srt [] = [].
Proof. apply Permutation_nil_r, sort_by_arrival_perm. Qed.

(** X9. The empty batch: FCFS and SJF report an empty table and an empty
    timeline (with the count 0 and the last completion 0, so that the
    averages are 0/0), Priority panics on [processes[0]], and so [main]
    ends in that panic. *)
Theorem empty_batch_panics_in_priority (srt : SortSlice) (fuel : nat) :
  (FCFSSchedule []).2 = mkOutput [] [] 0 0 0 0 /\
  (SJFSchedule srt (S fuel) []).2 = Done (mkOutput [] [] 0 0 0 0) /\
  (SJFPrioritySchedule srt fuel []).2 = Panic /\
  (main srt (S fuel) []).2 = Panic.
Proof.
  assert (Hsjf : (SJFSchedule srt (S fuel) []).2
                 = Done (mkOutput [] [] 0 0 0 0)).
  { rewrite SJFSchedule_result, sort_nil. reflexivity. }
  assert (Hprio : forall n, (SJFPrioritySchedule srt n []).2 = Panic).
  { intros n. rewrite SJFPrioritySchedule_result, sort_nil. reflexivity. }
  split; [reflexivity|]. split; [done|]. split; [done|].
  unfold main. cbn [FCFSSchedule].
  unfold SJFSchedule, SJFPrioritySchedule. cbv zeta.
  rewrite !sort_nil. reflexivity.
Qed.



Lemma sjf_step_some ps st :
  sjf_lengths ps st ->
  (SJF.numOfCompletedProcesses st < length ps)%nat ->
  exists st', SJF.step ps st = Some st'.
Proof.
  intros Hl Hk.
  destruct (sjf_step_shape ps st Hl Hk)
    as [(p & _ & _ & Hs)|(i & p & r & _ & _ & _ & _ & Hs)].
  - by eexists.
  - cbv zeta in Hs. case_decide.
    + destruct Hs as (g2 & _ & Hs). by eexists.
    + by eexists.
Qed.



Lemma omap_length_lt (sched : list (option ScheduleRow)) i :
  sched !! i = Some None -> (length (omap id sched) < length sched)%nat.
Proof.
  assert (Hle : forall l : list (option ScheduleRow),
             (length (omap id l) <= length l)%nat).
  { induction l as [|[r|] l IH]; csimpl; lia. }
  revert i. induction sched as [|o sched IH]; intros [|i] Hi; simplify_eq/=.
  - specialize (Hle sched). lia.
  - specialize (IH i Hi). destruct o; csimpl; lia.
Qed.

(** A process whose burst is not positive is never selected: its
    remaining time stays at its burst and its slot stays empty. *)
Lemma sjf_reachable_stuck ps st i p :
  ps !! i = Some p -> BurstDuration p <= 0 ->
  SJFSpec.reachable ps st ->
  SJF.remainingTime st !! i = Some (BurstDuration p) /\
  SJF.schedule st !! i = Some None.
Proof.
  intros Hp Hb. induction 1 as [|st st' Hreach [Hrem Hslot] Hk Hstep].
  - simpl. split.
    + by rewrite list_lookup_fmap, Hp.
    + apply lookup_replicate_2. by eapply lookup_lt_Some.
  - destruct (sjf_step_shape ps st (sjf_reachable_lengths _ _ Hreach) Hk)
      as [(q & _ & _ & Hs)|(j & q & r & Hq & Hr & Hrange & _ & Hs)].
    { rewrite Hs in Hstep. by injection Hstep as <-. }
    assert (Hij : j <> i).
    { intros ->. rewrite Hrem in Hr. injection Hr as <-. lia. }
    cbv zeta in Hs. case_decide.
    + destruct Hs as (g2 & _ & Hs). rewrite Hs in Hstep.
      injection Hstep as <-. simpl.
      by rewrite !list_lookup_insert_ne.
    + rewrite Hs in Hstep. injection Hstep as <-. simpl.
      by rewrite list_lookup_insert_ne.
Qed.

Lemma sjf_loop_stuck ps i p :
  ps !! i = Some p -> BurstDuration p <= 0 ->
  forall fuel st, SJFSpec.reachable ps st -> SJF.loop fuel ps st = Timeout.
Proof.
  intros Hp Hb. induction fuel as [|fuel IH]; intros st Hreach; [done|].
  rewrite sjf_loop_unfold.
  pose proof (sjf_reachable_lengths _ _ Hreach) as Hl.
  assert (Hk : (SJF.numOfCompletedProcesses st < length ps)%nat).
  { destruct (sjf_reachable_stuck _ _ _ _ Hp Hb Hreach) as [_ Hslot].
    pose proof (sjf_reachable_table _ _ Hreach) as [_ _ Hcount _].
    destruct Hl as (_ & _ & Hls).
    rewrite Hcount, <- Hls. by eapply omap_length_lt. }
  rewrite decide_True by done.
  destruct (sjf_step_some ps st Hl Hk) as (st' & Hstep). rewrite Hstep.
  apply IH. by eapply SJFSpec.reach_step.
Qed.

(** X12. SJF does not end on a batch that holds a process whose burst is
    zero or negative: such a process is never selected and never counted
    as complete, so the loop runs (and moves the clock or serves the other
    processes) for ever. *)
Theorem sjf_never_ends_on_nonpositive_burst (srt : SortSlice)
        (ps : list Process) (p : Process) (fuel : nat) :
  p ∈ ps -> BurstDuration p <= 0 ->
  (SJFSchedule srt fuel ps).2 = Timeout.
Proof.
  intros Hp Hb. rewrite <- (sort_by_arrival_perm srt ps) in Hp.
  apply list_elem_of_lookup_1 in Hp as [i Hi].
  rewrite SJFSchedule_result.
  by rewrite (sjf_loop_stuck _ _ _ Hi Hb fuel _ (SJFSpec.reach_init _)).
Qed.

(** X12 on a single process of burst 0. *)
Lemma sjf_never_ends_on_nonpositive_burst_witness :
  (SJFSchedule insertionSort 100 [proc 1 0 0 0]).2 = Timeout.
Proof.
  apply (sjf_never_ends_on_nonpositive_burst goInsertionSort
           [proc 1 0 0 0] (proc 1 0 0 0) 100).
  - apply list_elem_of_here.
  - simpl. lia.
Defined.

(** ** The heap keeps its order *)

Lemma heap_Swap_lookup h i j a b k :
  h !! i = Some a -> h !! j = Some b ->
  GoHeap.Swap h i j !! k
  = if decide (k = j) then Some a
    else if decide (k = i) then Some b else h !! k.
Proof.
  intros Hi Hj. unfold GoHeap.Swap. rewrite Hi, Hj.
  pose proof (lookup_lt_Some _ _ _ Hi). pose proof (lookup_lt_Some _ _ _ Hj).
  case_decide as Hkj.
  - subst k. apply list_lookup_insert_eq. by rewrite length_insert.
  - rewrite list_lookup_insert_ne by done. case_decide as Hki.
    + subst k. by apply list_lookup_insert_eq.
    + by rewrite list_lookup_insert_ne.
Qed.

Lemma heap_Swap_length h i j : length (GoHeap.Swap h i j) = length h.
Proof. apply Permutation_length, heap_Swap_perm. Qed.

Lemma heap_Less_true h i j :
  GoHeap.Less h i j = true ->
  exists a b, h !! i = Some a /\ h !! j = Some b /\ Priority a < Priority b.
Proof.
  unfold GoHeap.Less. destruct (h !! i) as [a|]; [|done].
  destruct (h !! j) as [b|]; [|done].
  intros H%Z.ltb_lt. by exists a, b.
Qed.

Lemma heap_Less_false h i j a b :
  h !! i = Some a -> h !! j = Some b ->
  GoHeap.Less h i j = false -> Priority b <= Priority a.
Proof.
  unfold GoHeap.Less. intros -> ->. intros H%Z.ltb_ge. done.
Qed.

Lemma heap_up_unfold fuel h j :
  GoHeap.up (S fuel) h j
  = let i := ((j - 1) / 2)%nat in
    if bool_decide (i = j) || negb (GoHeap.Less h j i) then h
    else GoHeap.up fuel (GoHeap.Swap h i j) i.
Proof. reflexivity. Qed.

Lemma heap_down_unfold fuel h i n :
  GoHeap.down (S fuel) h i n
  = let j1 := (2 * i + 1)%nat in
    if bool_decide (n <= j1)%nat then h
    else
      let j2 := (j1 + 1)%nat in
      let j := if bool_decide (j2 < n)%nat && GoHeap.Less h j2 j1
               then j2 else j1 in
      if negb (GoHeap.Less h j i) then h
      else GoHeap.down fuel (GoHeap.Swap h i j) j n.
Proof. reflexivity. Qed.

(** [up(h, j)] restores the order of a heap in which only the element at
    [j] may be less than its parent. *)
Lemma heap_up_ordered fuel : forall h j,
  (j < fuel)%nat -> (j < length h)%nat ->
  (forall c p q, (0 < c)%nat -> c <> j ->
                 h !! ((c - 1) / 2)%nat = Some p -> h !! c = Some q ->
                 Priority p <= Priority q) ->
  (forall c p q, (0 < j)%nat -> (0 < c)%nat -> ((c - 1) / 2)%nat = j ->
                 h !! ((j - 1) / 2)%nat = Some p -> h !! c = Some q ->
                 Priority p <= Priority q) ->
  heap_ordered (GoHeap.up fuel h j).
Proof.
  induction fuel as [|fuel IH]; intros h j Hfuel Hj Hedges Hgrand; [lia|].
  rewrite heap_up_unfold. cbv zeta.
  set (i := ((j - 1) / 2)%nat).
  destruct (lookup_lt_is_Some_2 h j Hj) as [b Hb].
  destruct (lookup_lt_is_Some_2 h i) as [a Ha]; [unfold i; lia|].
  case_bool_decide as Hij; simpl.
  { intros c p q Hc Hp Hq. eapply (Hedges c); eauto. unfold i in Hij. lia. }
  destruct (GoHeap.Less h j i) eqn:Hless; simpl.
  2:{ intros c p q Hc Hp Hq. destruct (decide (c = j)) as [->|Hne].
      - fold i in Hp. simplify_eq. by eapply heap_Less_false.
      - by eapply (Hedges c). }
  apply heap_Less_true in Hless as (b' & a' & Hb' & Ha' & Hlt).
  simplify_eq.
  assert (Hi0 : (0 < j)%nat) by (unfold i in Hij; lia).
  assert (Hilt : (i < j)%nat) by (unfold i; lia).
  apply IH.
  - lia.
  - rewrite heap_Swap_length. lia.
  - intros c p q Hc Hci.
    rewrite !(heap_Swap_lookup h i j a b) by done.
    destruct (decide (c = j)) as [->|Hcj].
    + fold i. rewrite decide_False by lia. rewrite decide_True by done.
      intros [= <-] [= <-]. lia.
    + rewrite (decide_False (P := c = i)) by done.
      destruct (decide (((c - 1) / 2)%nat = j)) as [Hpj|Hpj].
      * intros [= <-] Hq. eapply (Hgrand c); eauto.
      * destruct (decide (((c - 1) / 2)%nat = i)) as [Hpi|Hpi].
        -- intros [= <-] Hq.
           assert (Priority a <= Priority q); [|lia].
           eapply (Hedges c); eauto. by rewrite Hpi.
        -- intros Hp Hq. by eapply (Hedges c).
  - intros c p q Hi Hc Hci.
    rewrite !(heap_Swap_lookup h i j a b) by done.
    rewrite (decide_False (P := ((i - 1) / 2)%nat = j)) by lia.
    rewrite (decide_False (P := ((i - 1) / 2)%nat = i)) by lia.
    intros Hp.
    assert (Hpa : Priority p <= Priority a).
    { eapply (Hedges i); eauto; lia. }
    destruct (decide (c = j)) as [->|Hcj].
    + by intros [= <-].
    + rewrite (decide_False (P := c = i)) by lia.
      intros Hq. assert (Priority a <= Priority q); [|lia].
      eapply (Hedges c); eauto. by rewrite Hci.
Qed.

Lemma heap_Push_ordered h x :
  heap_ordered h -> heap_ordered (GoHeap.Push h x).
Proof.
  intros Hh. unfold GoHeap.Push. cbv zeta. rewrite length_app. simpl.
  replace (length h + 1 - 1)%nat with (length h) by lia.
  apply heap_up_ordered.
  - lia.
  - rewrite length_app. simpl. lia.
  - intros c p q Hc Hne Hp Hq.
    assert (Hlt : (c < length h)%nat).
    { apply lookup_lt_Some in Hq. rewrite length_app in Hq. simpl in Hq. lia. }
    rewrite lookup_app_l in Hp by lia. rewrite lookup_app_l in Hq by lia.
    by eapply (Hh c).
  - intros c p q Hj Hc Hpar _ Hq.
    apply lookup_lt_Some in Hq. rewrite length_app in Hq. simpl in Hq. lia.
Qed.

Lemma heap_down_lookup_ge fuel : forall h i n k,
  (n <= k)%nat -> GoHeap.down fuel h i n !! k = h !! k.
Proof.
  induction fuel as [|fuel IH]; intros h i n k Hk; [done|].
  rewrite heap_down_unfold. cbv zeta.
  case_bool_decide as Hn; [done|].
  set (j := if bool_decide (2 * i + 1 + 1 < n)%nat
                && GoHeap.Less h (2 * i + 1 + 1) (2 * i + 1)
            then (2 * i + 1 + 1)%nat else (2 * i + 1)%nat).
  assert (Hj : (j < n)%nat).
  { unfold j. case_bool_decide; simpl; [|lia].
    destruct (GoHeap.Less h _ _); lia. }
  destruct (GoHeap.Less h j i) eqn:Hless; simpl; [|done].
  apply heap_Less_true in Hless as (b & a & Hb & Ha & _).
  rewrite IH by done.
  rewrite (heap_Swap_lookup h i j a b) by done.
  rewrite decide_False by lia. rewrite decide_False by lia. done.
Qed.

(** [down(h, i, n)] restores the order of the first [n] elements of a heap
    in which only the children of [i] may be less than their parent. *)
Lemma heap_down_ordered fuel : forall h i n,
  (n <= i + fuel)%nat -> (n <= length h)%nat ->
  (forall c p q, (0 < c < n)%nat -> ((c - 1) / 2)%nat <> i ->
                 h !! ((c - 1) / 2)%nat = Some p -> h !! c = Some q ->
                 Priority p <= Priority q) ->
  (forall c p q, (0 < i)%nat -> (0 < c < n)%nat -> ((c - 1) / 2)%nat = i ->
                 h !! ((i - 1) / 2)%nat = Some p -> h !! c = Some q ->
                 Priority p <= Priority q) ->
  forall c p q, (0 < c < n)%nat ->
                GoHeap.down fuel h i n !! ((c - 1) / 2)%nat = Some p ->
                GoHeap.down fuel h i n !! c = Some q ->
                Priority p <= Priority q.
Proof.
  induction fuel as [|fuel IH]; intros h i n Hfuel Hn Hedges Hgrand.
  { intros c p q Hc. apply Hedges; [done|lia]. }
  rewrite heap_down_unfold. cbv zeta.
  case_bool_decide as Hleaf.
  { intros c p q Hc. apply Hedges; [done|lia]. }
  set (j1 := (2 * i + 1)%nat) in *. set (j2 := (j1 + 1)%nat).
  set (j := if bool_decide (j2 < n)%nat && GoHeap.Less h j2 j1
            then j2 else j1).
  destruct (lookup_lt_is_Some_2 h i) as [a Ha]; [unfold j1 in *; lia|].
  destruct (lookup_lt_is_Some_2 h j1) as [k1 Hk1]; [lia|].
  assert (Hjn : (j < n)%nat /\ (j = j1 \/ j = j2)).
  { unfold j. case_bool_decide; simpl; [|lia].
    destruct (GoHeap.Less h _ _); lia. }
  destruct Hjn as [Hjn Hjcase].
  destruct (lookup_lt_is_Some_2 h j) as [b Hb]; [lia|].
  assert (Hmin : forall c q, (c < n)%nat -> ((c - 1) / 2)%nat = i ->
                             (0 < c)%nat -> h !! c = Some q ->
                             Priority b <= Priority q).
  { intros c q Hc Hpar Hc0 Hq.
    assert (Hcc : c = j1 \/ c = j2) by (unfold j2, j1; lia).
    unfold j in Hb. case_bool_decide as Hj2; simpl in Hb.
    - destruct (lookup_lt_is_Some_2 h j2) as [k2 Hk2]; [lia|].
      destruct (GoHeap.Less h j2 j1) eqn:Hl.
      + apply heap_Less_true in Hl as (x & y & Hx & Hy & Hxy).
        assert (x = b) by congruence. assert (y = k1) by congruence.
        subst x y.
        destruct Hcc as [->| ->]; [assert (q = k1) by congruence
                                  |assert (q = b) by congruence]; subst q; lia.
      + pose proof (heap_Less_false _ _ _ _ _ Hk2 Hk1 Hl).
        assert (b = k1) by congruence. subst b.
        destruct Hcc as [->| ->]; [assert (q = k1) by congruence
                                  |assert (q = k2) by congruence]; subst q; lia.
    - assert (b = k1) by congruence. subst b.
      destruct Hcc as [->| ->]; [|unfold j2 in *; lia].
      assert (q = k1) by congruence. subst q. lia. }
  destruct (GoHeap.Less h j i) eqn:Hless; cbn [negb].
  2:{ intros c p q Hc Hp Hq.
      destruct (decide (((c - 1) / 2)%nat = i)) as [Hpar|Hpar].
      - rewrite Hpar in Hp. assert (p = a) by congruence. subst p.
        pose proof (heap_Less_false _ _ _ _ _ Hb Ha Hless).
        pose proof (Hmin c q ltac:(lia) Hpar ltac:(lia) Hq). lia.
      - by eapply (Hedges c). }
  apply heap_Less_true in Hless as (b' & a' & Hb' & Ha' & Hlt).
  assert (b' = b) by congruence. assert (a' = a) by congruence.
  subst b' a'. clear Hb' Ha'.
  assert (Hij : (i < j)%nat) by (unfold j2, j1 in *; lia).
  assert (Hpj : ((j - 1) / 2)%nat = i) by (unfold j2, j1 in *; lia).
  apply IH.
  - unfold j2, j1 in *. lia.
  - by rewrite heap_Swap_length.
  - intros c p q Hc Hcj.
    rewrite !(heap_Swap_lookup h i j a b) by done.
    rewrite (decide_False (P := ((c - 1) / 2)%nat = j)) by done.
    destruct (decide (((c - 1) / 2)%nat = i)) as [Hpar|Hpar].
    + intros [= <-]. destruct (decide (c = j)) as [->|Hne].
      * intros [= <-]. lia.
      * rewrite decide_False by lia. intros Hq.
        by apply (Hmin c q ltac:(lia) Hpar ltac:(lia)).
    + intros Hp. rewrite (decide_False (P := c = j)) by lia.
      destruct (decide (c = i)) as [->|Hne].
      * intros [= <-]. eapply (Hgrand j); eauto; lia.
      * intros Hq. by eapply (Hedges c).
  - intros c p q _ Hc Hcj.
    rewrite !(heap_Swap_lookup h i j a b) by done.
    rewrite Hpj. rewrite decide_False by lia. rewrite decide_True by done.
    intros [= <-].
    rewrite decide_False by lia. rewrite decide_False by lia.
    intros Hq. eapply (Hedges c); eauto; [lia|]. by rewrite Hcj.
Qed.

(** The root of a heap has the lowest [Priority]. *)
Lemma heap_root_min h x :
  heap_ordered h -> h !! 0%nat = Some x ->
  Forall (fun q => Priority x <= Priority q) h.
Proof.
  intros Hh Hx. apply Forall_lookup. intros k.
  induction k as [k IH] using lt_wf_ind. intros q Hq.
  destruct (decide (k = 0)%nat) as [->|Hk]; [simplify_eq; lia|].
  destruct (lookup_lt_is_Some_2 h ((k - 1) / 2)%nat) as [p Hp].
  { apply lookup_lt_Some in Hq. lia. }
  pose proof (IH ((k - 1) / 2)%nat ltac:(lia) p Hp).
  pose proof (Hh k p q ltac:(lia) Hp Hq). lia.
Qed.

(** [heap.Pop] returns the root and leaves a heap. *)
Lemma heap_Pop_ordered (h h1 : list Process) (x : Process) :
  heap_ordered h ->
  GoHeap.Pop h = Some (x, h1) ->
  h !! 0%nat = Some x /\
  Forall (fun q => Priority x <= Priority q) h1 /\
  x :: h1 ≡ₚ h /\
  heap_ordered h1.
Proof.
  intros Hh Hpop. pose proof (heap_Pop_perm _ _ _ Hpop) as Hperm.
  unfold GoHeap.Pop in Hpop.
  destruct (length h) as [|n] eqn:Hlen; [done|]. cbv zeta in Hpop.
  destruct (lookup_lt_is_Some_2 h 0) as [r Hr]; [lia|].
  destruct (lookup_lt_is_Some_2 h n) as [z Hz]; [lia|].
  set (h' := GoHeap.down (S n) (GoHeap.Swap h 0 n) 0 n) in *.
  assert (Hlast : h' !! n = Some r).
  { unfold h'. rewrite heap_down_lookup_ge by done.
    rewrite (heap_Swap_lookup h 0 n r z) by done. by rewrite decide_True. }
  rewrite Hlast in Hpop. simpl in Hpop. injection Hpop as <- <-.
  pose proof (heap_root_min h r Hh Hr) as Hmin.
  split; [done|]. split; [|split; [done|]].
  - rewrite <- Hperm in Hmin. by apply Forall_cons in Hmin as [_ ?].
  - intros c p q Hc Hp Hq.
    assert (Hcn : (c < n)%nat).
    { apply lookup_lt_Some in Hq. rewrite length_take in Hq. lia. }
    rewrite lookup_take_lt in Hp by lia. rewrite lookup_take_lt in Hq by lia.
    revert Hp Hq. unfold h'. apply heap_down_ordered.
    + lia.
    + rewrite heap_Swap_length. lia.
    + intros c' p' q' Hc' Hpar.
      rewrite !(heap_Swap_lookup h 0 n r z) by done.
      rewrite !decide_False by lia. by apply Hh; lia.
    + intros; lia.
    + lia.
Qed.

(** X13. [heap.Push] keeps the heap condition: pushing onto a heap in
    which no process has a lower [Priority] than its parent gives such a
    heap again, with the same processes and the new one. *)
Theorem heap_Push_keeps_order (h : list Process) (x : Process) :
  heap_ordered h ->
  heap_ordered (GoHeap.Push h x) /\ GoHeap.Push h x ≡ₚ x :: h.
Proof.
  intros Hh. split; [by apply heap_Push_ordered|apply heap_Push_perm].
Qed.

(** X14. [heap.Pop] returns a process of the lowest [Priority] of the
    heap, its root, and leaves a heap: on a heap in which no process has a
    lower [Priority] than its parent, the process returned has a
    [Priority] that is at most that of every process left, the processes
    left are those of the heap without it, and they satisfy the heap
    condition again. An empty heap is the only one on which it fails. *)
Theorem heap_Pop_returns_lowest_priority (h : list Process) :
  heap_ordered h ->
  match GoHeap.Pop h with
  | Some (x, h1) =>
      h !! 0%nat = Some x /\
      Forall (fun q => Priority x <= Priority q) h1 /\
      x :: h1 ≡ₚ h /\
      heap_ordered h1
  | None => h = []
  end.
Proof.
  intros Hh. destruct (GoHeap.Pop h) as [[x h1]|] eqn:Hpop.
  - by apply heap_Pop_ordered.
  - destruct h as [|p h]; [done|].
    destruct (heap_Pop_nonempty (p :: h)) as (x & h1 & Hsome); [done|].
    congruence.
Qed.

(** ** Priority: idle gaps *)

Lemma push_arrivals_full t : forall pending h idx h' idx',
  Prio.push_arrivals t pending h idx = (h', idx') ->
  exists k,
    idx' = (idx + k)%nat /\ (k <= length pending)%nat /\
    h' ≡ₚ h ++ take k pending /\
    Forall (fun p => ArrivalTime p = t) (take k pending) /\
    forall p, pending !! k = Some p -> ArrivalTime p <> t.
Proof.
  induction pending as [|p pending IH]; intros h idx h' idx'; simpl.
  - intros [= <- <-]. exists 0%nat.
    rewrite Nat.add_0_r, app_nil_r. by repeat split.
  - case_decide as Harr.
    + intros Hrec.
      destruct (IH _ _ _ _ Hrec) as (k & -> & Hk & Hperm & Hall & Hnext).
      exists (S k). split; [lia|]. split; [simpl; lia|]. simpl.
      split; [|split; [by constructor|done]].
      rewrite Hperm, heap_Push_perm. simpl. apply Permutation_middle.
    + intros [= <- <-]. exists 0%nat.
      rewrite Nat.add_0_r, app_nil_r. repeat split; try done; [lia|].
      by intros q [= <-].
Qed.








(** ** Priority runs a process of the lowest [Priority] *)

Lemma heap_ordered_nil : heap_ordered [].
Proof. by intros j p q _ _ Hq. Qed.

Lemma push_arrivals_ordered t : forall pending h idx h' idx',
  heap_ordered h ->
  Prio.push_arrivals t pending h idx = (h', idx') -> heap_ordered h'.
Proof.
  induction pending as [|p pending IH]; intros h idx h' idx' Hh; simpl.
  - by intros [= <- <-].
  - case_decide.
    + apply IH. by apply heap_Push_ordered.
    + by intros [= <- <-].
Qed.

Lemma prio_starts_slice_last g pid t stop :
  exists s,
    last (if Prio.starts_slice g pid
          then g ++ [mkTimeSlice pid t stop] else g) = Some s /\
    PID s = pid.
Proof.
  unfold Prio.starts_slice. destruct (last g) as [s|] eqn:Hlast.
  - case_bool_decide as Hpid; simpl.
    + by exists s.
    + eexists. by rewrite last_snoc.
  - eexists. by rewrite last_snoc.
Qed.

(** Running a unit on a heap: the process run is the root of the heap, it
    is the owner of the last slice afterwards, and the heap left is a heap
    again. *)
Lemma prio_run_unit_lowest m st t h inserted st' :
  heap_ordered h ->
  Prio.run_unit m st t h inserted = Prio.Continue st' ->
  heap_ordered (Prio.minHeap st') /\
  Prio.currentTime st' = add64 t 1 /\
  exists x s,
    x ∈ h /\ Forall (fun q => Priority x <= Priority q) h /\
    last (Prio.gantt st') = Some s /\ PID s = ProcessID x.
Proof.
  intros Hh. unfold Prio.run_unit.
  destruct (GoHeap.Pop h) as [[x h1]|] eqn:Hpop; [|done].
  destruct (heap_Pop_ordered _ _ _ Hh Hpop) as (Hroot & Hmin & Hperm & Hh1).
  assert (Hx : x ∈ h /\ Forall (fun q => Priority x <= Priority q) h).
  { split; [by eapply list_elem_of_lookup_2|].
    rewrite <- Hperm. constructor; [lia|done]. }
  cbv zeta.
  destruct (prio_starts_slice_last (Prio.gantt st) (ProcessID x) t
              (add64 (add64 t (sub64 (BurstDuration x) 1)) 1))
    as (s & Hs & Hpid).
  case_decide as Hz.
  - destruct (Prio.turnAroundTimes st !! _); [|done].
    destruct (Prio.waitingTimes st !! _); [|done].
    intros [= <-]. cbn [Prio.gantt Prio.minHeap Prio.currentTime].
    split; [done|]. split; [done|]. exists x, s. by destruct Hx.
  - intros [= <-]. cbn [Prio.gantt Prio.minHeap Prio.currentTime].
    split; [by apply heap_Push_ordered|].
    split; [done|]. exists x, s. by destruct Hx.
Qed.

(** X15. In every iteration of Priority that runs a unit, the unit goes to
    a process of the lowest [Priority] among the ready ones, which are the
    processes in the heap and those arriving at the current time; that
    process owns the last slice of the timeline afterwards, the clock
    moves by one, and the heap is a heap again (as it is at the start,
    when it is empty). *)
Theorem priority_runs_lowest_priority (ps : list Process) (m : gmap Z nat)
        (st st' : Prio.state) :
  heap_ordered (Prio.minHeap st) ->
  Prio.step ps m st = Prio.Continue st' ->
  heap_ordered (Prio.minHeap st') /\
  Prio.currentTime st' = add64 (Prio.currentTime st) 1 /\
  exists k ready x s,
    Forall (fun p => ArrivalTime p = Prio.currentTime st)
           (take k (drop (Prio.insertedProcessIdx st) ps)) /\
    (forall p, drop (Prio.insertedProcessIdx st) ps !! k = Some p ->
               ArrivalTime p <> Prio.currentTime st) /\
    ready ≡ₚ Prio.minHeap st
             ++ take k (drop (Prio.insertedProcessIdx st) ps) /\
    x ∈ ready /\ Forall (fun q => Priority x <= Priority q) ready /\
    last (Prio.gantt st') = Some s /\ PID s = ProcessID x.
Proof.
  intros Hh. unfold Prio.step.
  destruct (Prio.push_arrivals _ _ _ _) as [h inserted] eqn:Hpush.
  pose proof (push_arrivals_ordered _ _ _ _ _ _ Hh Hpush) as Hh'.
  apply push_arrivals_full in Hpush
    as (k & -> & _ & Hperm & Harrived & Hnext).
  case_decide as Hempty.
  - case_decide; [|done].
    destruct (ps !! _); [|done].
    unfold Prio.run_unit, GoHeap.Pop. by rewrite Hempty.
  - intros Hrun.
    destruct (prio_run_unit_lowest _ _ _ _ _ _ Hh' Hrun)
      as (Hheap & Ht & x & s & Hx & Hmin & Hs & Hpid).
    split; [done|]. split; [done|].
    by exists k, h, x, s.
Qed.






(** ** Priority: the table *)

Lemma prio_run_unit_lengths m st t h inserted st' n :
  length (Prio.turnAroundTimes st) = n ->
  length (Prio.waitingTimes st) = n ->
  Prio.run_unit m st t h inserted = Prio.Continue st' ->
  length (Prio.turnAroundTimes st') = n /\
  length (Prio.waitingTimes st') = n.
Proof.
  intros Htat Hwt. unfold Prio.run_unit.
  destruct (GoHeap.Pop h) as [[x h1]|]; [|done]. cbv zeta.
  case_decide.
  - destruct (Prio.turnAroundTimes st !! _); [|done].
    destruct (Prio.waitingTimes st !! _); [|done].
    intros [= <-]. simpl. by rewrite !length_insert.
  - by intros [= <-].
Qed.

Lemma prio_loop_lengths ps m n fuel : forall st st',
  length (Prio.turnAroundTimes st) = n ->
  length (Prio.waitingTimes st) = n ->
  Prio.loop fuel ps m st = Done st' ->
  length (Prio.turnAroundTimes st') = n /\
  length (Prio.waitingTimes st') = n.
Proof.
  induction fuel as [|fuel IH]; intros st st' Htat Hwt; simpl; [done|].
  destruct (Prio.step ps m st) as [st1|st1|] eqn:Hstep; try done.
  - assert (Hl : length (Prio.turnAroundTimes st1) = n /\
                 length (Prio.waitingTimes st1) = n).
    { unfold Prio.step in Hstep.
      destruct (Prio.push_arrivals _ _ _ _) as [h inserted].
      case_decide.
      - case_decide; [|done]. destruct (ps !! inserted); [|done].
        by eapply prio_run_unit_lengths.
      - by eapply prio_run_unit_lengths. }
    destruct Hl. by apply IH.
  - intros [= <-]. unfold Prio.step in Hstep.
    destruct (Prio.push_arrivals _ _ _ _) as [h inserted].
    case_decide.
    + case_decide.
      * destruct (ps !! inserted); [|done].
        unfold Prio.run_unit in Hstep.
        destruct (GoHeap.Pop h) as [[x h1]|]; [|done]. cbv zeta in Hstep.
        case_decide; [|done].
        destruct (Prio.turnAroundTimes st !! _); [|done].
        by destruct (Prio.waitingTimes st !! _).
      * by injection Hstep as <-.
    + unfold Prio.run_unit in Hstep.
      destruct (GoHeap.Pop h) as [[x h1]|]; [|done]. cbv zeta in Hstep.
      case_decide; [|done].
      destruct (Prio.turnAroundTimes st !! _); [|done].
      by destruct (Prio.waitingTimes st !! _).
Qed.

(** The closing loop of Priority writes one row per process. *)
Lemma prio_fill_rows_spec : forall ps wts tats last last' sched,
  length wts = length ps -> length tats = length ps ->
  Prio.fill_rows ps wts tats last = (last', sched) ->
  sched = Some <$> omap id sched /\
  row_key <$> omap id sched = process_key <$> ps /\
  rowWait <$> omap id sched = wts /\
  rowTurnaround <$> omap id sched = tats /\
  Forall (fun r => rowCompletion r
                   = add64 (add64 (rowArrival r) (rowBurst r)) (rowWait r))
         (omap id sched) /\
  last <= last' /\
  Forall (fun r => rowCompletion r <= last') (omap id sched).
Proof.
  induction ps as [|p ps IH]; intros wts tats last last' sched Hw Ht.
  - destruct wts; [|done]. destruct tats; [|done]. simpl.
    intros [= <- <-]. csimpl. by repeat split.
  - destruct wts as [|w wts]; [done|]. destruct tats as [|tat tats]; [done|].
    simpl in Hw, Ht. cbn [Prio.fill_rows]. cbv zeta.
    destruct (Prio.fill_rows ps wts tats _) as [lastN rs] eqn:Hrec.
    intros [= <- <-].
    injection Hw as Hw. injection Ht as Ht.
    destruct (IH _ _ _ _ _ Hw Ht Hrec)
      as (Hfull & Hkeys & Hws & Hts & Hcomp & Hlast & Hle).
    rewrite ltb_max in Hlast.
    csimpl. rewrite <- Hfull, Hkeys, Hws, Hts.
    repeat split; try done.
    + by constructor.
    + lia.
    + constructor; [simpl; lia|done].
Qed.

(** X17. When Priority returns, its table is complete and in the order of
    the sorted slice: row [i] carries the id, priority, burst and arrival
    of the process at index [i]; the completion time of every row is
    arrival + burst + wait in [int64]; the two totals are the sums of the
    Wait and Turnaround columns; and no completion time of the table is
    after the last completion used for the throughput. *)
Theorem priority_table_complete_in_sorted_order
        (sort : list Process -> list Process) (fuel : nat)
        (ps : list Process) (out : Output) :
  (SJFPrioritySchedule sort fuel ps).2 = Done out ->
  outSchedule out = Some <$> rows out /\
  row_key <$> rows out = process_key <$> sort ps /\
  Forall (fun r => rowCompletion r
                   = add64 (add64 (rowArrival r) (rowBurst r)) (rowWait r))
         (rows out) /\
  outTotalWait out = fold_left add64 (rowWait <$> rows out) 0 /\
  outTotalTurnaround out = fold_left add64 (rowTurnaround <$> rows out) 0 /\
  Forall (fun r => rowCompletion r <= outLastCompletionTime out) (rows out).
Proof.
  rewrite SJFPrioritySchedule_result.
  destruct (Prio.init (sort ps)) as [st0|] eqn:Hinit; [|done].
  destruct (Prio.loop _ _ _ st0) as [st| |] eqn:Hloop; try done.
  intros [= <-].
  assert (Hl0 : length (Prio.turnAroundTimes st0) = length (sort ps) /\
                length (Prio.waitingTimes st0) = length (sort ps)).
  { unfold Prio.init in Hinit. destruct (sort ps !! 0%nat); [|done].
    simpl in Hinit. injection Hinit as <-. simpl.
    by rewrite !length_replicate. }
  destruct Hl0 as [Htat0 Hwt0].
  destruct (prio_loop_lengths _ _ _ _ _ _ Htat0 Hwt0 Hloop) as [Htat Hwt].
  unfold Prio.output, rows.
  destruct (Prio.fill_rows _ _ _ _) as [last sched] eqn:Hfill.
  destruct (prio_fill_rows_spec _ _ _ _ _ _ Hwt Htat Hfill)
    as (Hfull & Hkeys & Hws & Hts & Hcomp & _ & Hle).
  cbn [outSchedule outTotalWait outTotalTurnaround outLastCompletionTime].
  rewrite Hws, Hts. by repeat split.
Qed.

(** X17 on the batch of two processes that both arrive at 0. *)
Lemma priority_table_complete_in_sorted_order_witness :
  exists out,
    (SJFPrioritySchedule insertionSort 7 batch_two_priorities).2 = Done out /\
    row_key <$> rows out = process_key <$> insertionSort batch_two_priorities.
Proof.
  eexists. split; [vm_compute; reflexivity|].
  edestruct (fun out =>
               priority_table_complete_in_sorted_order insertionSort 7
                 batch_two_priorities out)
    as (_ & Hkeys & _); [vm_compute; reflexivity|].
  exact Hkeys.
Defined.

(** ** Priority: the wait that is recorded *)

Lemma mapIndex_lookup_notin : forall ps i (m : gmap Z nat) k,
  k ∉ ProcessID <$> ps -> Prio.mapIndex i ps m !! k = m !! k.
Proof.
  induction ps as [|p ps IH]; intros i m k Hk; simpl; [done|].
  rewrite fmap_cons, not_elem_of_cons in Hk. destruct Hk as [Hne Hk].
  rewrite IH by done. by rewrite lookup_insert_ne.
Qed.

(** [processesMapIndex] sends the id of a process of the slice to the
    index of a process with that id. *)
Lemma mapIndex_lookup_in : forall ps i (m : gmap Z nat) k,
  k ∈ ProcessID <$> ps ->
  exists j p, Prio.mapIndex i ps m !! k = Some (i + j)%nat /\
              ps !! j = Some p /\ ProcessID p = k.
Proof.
  induction ps as [|p ps IH]; intros i m k Hk; simpl.
  { by apply elem_of_nil in Hk. }
  destruct (decide (k ∈ ProcessID <$> ps)) as [Hin|Hnotin].
  - destruct (IH (S i) (<[ProcessID p := i]> m) k Hin) as (j & q & Hj & Hq & Hid).
    exists (S j), q. split; [|done]. rewrite Hj. f_equal. lia.
  - rewrite fmap_cons, elem_of_cons in Hk. destruct Hk as [->|Hk]; [|done].
    exists 0%nat, p. split; [|done].
    rewrite mapIndex_lookup_notin by done.
    rewrite lookup_insert_eq. f_equal. lia.
Qed.

Lemma NoDup_ids_lookup ps i j p q :
  NoDup (ProcessID <$> ps) ->
  ps !! i = Some p -> ps !! j = Some q -> ProcessID p = ProcessID q ->
  p = q.
Proof.
  intros Hnd Hp Hq Hid.
  assert (i = j); [|congruence].
  eapply NoDup_lookup; [exact Hnd| |].
  - by rewrite list_lookup_fmap, Hp.
  - by rewrite list_lookup_fmap, Hq, Hid.
Qed.

Lemma sub64_zero_r a b : sub64 (sub64 a b) 0 = sub64 a b.
Proof.
  unfold sub64. rewrite Z.sub_0_r. apply wrap64_id, wrap64_range.
Qed.

Lemma prio_run_unit_times ps st t h inserted :
  NoDup (ProcessID <$> ps) ->
  (forall x, x ∈ h -> exists p, p ∈ ps /\ ProcessID x = ProcessID p /\
                                ArrivalTime x = ArrivalTime p) ->
  prio_times_inv ps st ->
  match Prio.run_unit (Prio.mapIndex 0 ps ∅) st t h inserted with
  | Prio.Continue st' => prio_times_inv ps st'
  | Prio.Break st' => False
  | Prio.Failed => True
  end.
Proof.
  intros Hnd Hh [_ Htimes]. unfold Prio.run_unit.
  destruct (GoHeap.Pop h) as [[x h1]|] eqn:Hpop; [|done].
  apply heap_Pop_perm in Hpop. cbv zeta.
  assert (Hx : x ∈ h) by (rewrite <- Hpop; apply list_elem_of_here).
  assert (Hh1 : forall y, y ∈ h1 ->
                  exists p, p ∈ ps /\ ProcessID y = ProcessID p /\
                            ArrivalTime y = ArrivalTime p).
  { intros y Hy. apply Hh. rewrite <- Hpop. by apply list_elem_of_further. }
  destruct (Hh x Hx) as (p & Hp & Hid & Harr).
  case_decide as Hz.
  - destruct (mapIndex_lookup_in ps 0 ∅ (ProcessID x)) as (j & q & Hj & Hq & Hqid).
    { rewrite Hid. by apply list_elem_of_fmap_2. }
    rewrite Hj. simpl.
    destruct (Prio.turnAroundTimes st !! j) as [a|] eqn:Ha; [|done].
    destruct (Prio.waitingTimes st !! j) as [b|] eqn:Hb; [|done].
    split; [done|]. simpl.
    intros i r tat wt Hr Htat Hwt.
    destruct (decide (i = j)) as [->|Hij].
    + rewrite list_lookup_insert_eq in Htat by (by eapply lookup_lt_Some).
      rewrite list_lookup_insert_eq in Hwt by (by eapply lookup_lt_Some).
      injection Htat as <-. injection Hwt as <-. right.
      rewrite Hz, sub64_zero_r.
      apply list_elem_of_lookup_1 in Hp as [i' Hp].
      assert (q = p) by (eapply NoDup_ids_lookup; eauto; congruence).
      assert (r = q) by congruence. subst. by rewrite Harr.
    + rewrite list_lookup_insert_ne in Htat by done.
      rewrite list_lookup_insert_ne in Hwt by done.
      by eapply Htimes.
  - split; [|done]. simpl. intros y Hy.
    rewrite heap_Push_perm in Hy. apply elem_of_cons in Hy as [->|Hy].
    + by exists p.
    + by apply Hh1.
Qed.

Lemma prio_step_times ps st :
  NoDup (ProcessID <$> ps) ->
  prio_times_inv ps st ->
  match Prio.step ps (Prio.mapIndex 0 ps ∅) st with
  | Prio.Continue st' | Prio.Break st' => prio_times_inv ps st'
  | Prio.Failed => True
  end.
Proof.
  intros Hnd Hinv. pose proof Hinv as [Hheap Htimes]. unfold Prio.step.
  destruct (Prio.push_arrivals _ _ _ _) as [h inserted] eqn:Hpush.
  apply push_arrivals_spec in Hpush as (k & -> & Hperm).
  assert (Hh : forall x, x ∈ h ->
                 exists p, p ∈ ps /\ ProcessID x = ProcessID p /\
                           ArrivalTime x = ArrivalTime p).
  { intros x Hx. rewrite Hperm in Hx. apply elem_of_app in Hx as [Hx|Hx].
    - by apply Hheap.
    - exists x. split; [|done].
      apply elem_of_take in Hx as (i & Hx & _).
      rewrite lookup_drop in Hx. by eapply list_elem_of_lookup_2. }
  assert (Hrun : forall t,
            match Prio.run_unit (Prio.mapIndex 0 ps ∅) st t h
                    (Prio.insertedProcessIdx st + k) with
            | Prio.Continue st' | Prio.Break st' => prio_times_inv ps st'
            | Prio.Failed => True
            end).
  { intros t.
    pose proof (prio_run_unit_times ps st t h
                  (Prio.insertedProcessIdx st + k) Hnd Hh Hinv) as H.
    by destruct (Prio.run_unit _ _ _ _ _). }
  case_decide.
  - case_decide.
    + destruct (ps !! _); [apply Hrun|done].
    + by split.
  - apply Hrun.
Qed.

Lemma prio_loop_times ps fuel :
  NoDup (ProcessID <$> ps) ->
  forall st st',
    prio_times_inv ps st ->
    Prio.loop fuel ps (Prio.mapIndex 0 ps ∅) st = Done st' ->
    prio_times_inv ps st'.
Proof.
  intros Hnd. induction fuel as [|fuel IH]; intros st st' Hinv; simpl; [done|].
  pose proof (prio_step_times ps st Hnd Hinv) as Hstep.
  destruct (Prio.step _ _ st) as [st1|st1|]; try done.
  - by apply IH.
  - by intros [= <-].
Qed.

(** X28. The wait that Priority reports is the turnaround minus the
    arrival time, not the turnaround minus the burst: when the ids of the
    batch are distinct, every row of the table has either wait and
    turnaround both 0, or [WaitTime = TurnaroundTime - ArrivalTime] in
    [int64]. (The wait is computed from the burst of the popped copy,
    which has just been decremented to 0.) *)
Theorem priority_wait_is_turnaround_minus_arrival
        (sort : list Process -> list Process) (fuel : nat)
        (ps : list Process) (out : Output) :
  NoDup (ProcessID <$> sort ps) ->
  (SJFPrioritySchedule sort fuel ps).2 = Done out ->
  Forall (fun r => (rowWait r = 0 /\ rowTurnaround r = 0) \/
                   rowWait r = sub64 (rowTurnaround r) (rowArrival r))
         (rows out).
Proof.
  intros Hnd. rewrite SJFPrioritySchedule_result.
  destruct (Prio.init (sort ps)) as [st0|] eqn:Hinit; [|done].
  destruct (Prio.loop _ _ _ st0) as [st| |] eqn:Hloop; try done.
  intros [= <-].
  assert (Hst0 : prio_times_inv (sort ps) st0 /\
                 length (Prio.turnAroundTimes st0) = length (sort ps) /\
                 length (Prio.waitingTimes st0) = length (sort ps)).
  { unfold Prio.init in Hinit. destruct (sort ps !! 0%nat); [|done].
    simpl in Hinit. injection Hinit as <-. simpl.
    rewrite !length_replicate. split; [|done]. split; simpl.
    - intros x Hx. by apply elem_of_nil in Hx.
    - intros i q tat wt _ Htat Hwt.
      apply lookup_replicate_1 in Htat as [-> _].
      apply lookup_replicate_1 in Hwt as [-> _]. by left. }
  destruct Hst0 as (Hinv0 & Htat0 & Hwt0).
  destruct (prio_loop_lengths _ _ _ _ _ _ Htat0 Hwt0 Hloop) as [Htat Hwt].
  destruct (prio_loop_times _ _ Hnd _ _ Hinv0 Hloop) as [_ Htimes].
  unfold Prio.output, rows.
  destruct (Prio.fill_rows _ _ _ _) as [last sched] eqn:Hfill.
  destruct (prio_fill_rows_spec _ _ _ _ _ _ Hwt Htat Hfill)
    as (_ & Hkeys & Hws & Hts & _).
  cbn [outSchedule]. apply Forall_lookup. intros i r Hr.
  assert (Hkey : exists p, sort ps !! i = Some p /\ row_key r = process_key p).
  { apply (f_equal (fun l => l !! i)) in Hkeys.
    rewrite !list_lookup_fmap, Hr in Hkeys. simpl in Hkeys.
    destruct (sort ps !! i) as [p|]; [|done].
    exists p. split; [done|]. simpl in Hkeys.
    unfold row_key, process_key in *. congruence. }
  destruct Hkey as (p & Hp & Hkey).
  assert (Harr : rowArrival r = ArrivalTime p).
  { unfold row_key, process_key in Hkey. congruence. }
  rewrite Harr. apply (Htimes i p); [done| |].
  - by rewrite <- Hts, list_lookup_fmap, Hr.
  - by rewrite <- Hws, list_lookup_fmap, Hr.
Qed.

(** X28 on the batch of two processes that both arrive at 0. *)
Lemma priority_wait_is_turnaround_minus_arrival_witness :
  exists out,
    (SJFPrioritySchedule insertionSort 7 batch_two_priorities).2 = Done out /\
    Forall (fun r => (rowWait r = 0 /\ rowTurnaround r = 0) \/
                     rowWait r = sub64 (rowTurnaround r) (rowArrival r))
           (rows out).
Proof.
  eexists. split; [vm_compute; reflexivity|].
  apply (priority_wait_is_turnaround_minus_arrival insertionSort 7
           batch_two_priorities).
  - apply (bool_decide_unpack
             (NoDup (ProcessID <$> insertionSort batch_two_priorities))).
    vm_compute. reflexivity.
  - vm_compute. reflexivity.
Defined.

(** ** The timelines merge the units of a process that keeps running *)

Lemma no_repeat_nil : no_repeat [].
Proof. by intros i a b Ha. Qed.

Lemma no_repeat_snoc l a :
  no_repeat l -> last l <> Some a -> no_repeat (l ++ [a]).
Proof.
  intros Hl Hlast i x y Hx Hy.
  destruct (decide (S i < length l)%nat) as [Hlt|Hge].
  - rewrite lookup_app_l in Hx by lia. rewrite lookup_app_l in Hy by lia.
    by eapply Hl.
  - assert (Hi : S i = length l).
    { apply lookup_lt_Some in Hy. rewrite length_app in Hy. simpl in Hy. lia. }
    rewrite lookup_app_l in Hx by lia.
    rewrite lookup_app_r in Hy by lia.
    rewrite Hi, Nat.sub_diag in Hy. injection Hy as <-.
    intros ->. apply Hlast. rewrite last_lookup.
    by replace (pred (length l)) with i by lia.
Qed.

Lemma starts_slice_no_repeat g pid t stop :
  no_repeat (PID <$> g) ->
  no_repeat (PID <$> (if Prio.starts_slice g pid
                      then g ++ [mkTimeSlice pid t stop] else g)).
Proof.
  intros Hg. unfold Prio.starts_slice.
  destruct (last g) as [s|] eqn:Hlast.
  - case_bool_decide as Hpid; simpl; [done|].
    rewrite fmap_app. apply no_repeat_snoc; [done|].
    rewrite fmap_last, Hlast. simpl. congruence.
  - rewrite fmap_app. apply no_repeat_snoc; [done|].
    by rewrite fmap_last, Hlast.
Qed.

Lemma set_last_stop_pids g stop g' :
  SJF.set_last_stop g stop = Some g' -> PID <$> g' = PID <$> g.
Proof.
  unfold SJF.set_last_stop. destruct (length g) as [|k]; [done|].
  destruct (g !! k) as [s|] eqn:Hs; [|done]. simpl. intros [= <-].
  rewrite list_fmap_insert. simpl.
  apply list_insert_id. by rewrite list_lookup_fmap, Hs.
Qed.

Lemma sjf_step_no_repeat ps st st' :
  sjf_lengths ps st ->
  (SJF.numOfCompletedProcesses st < length ps)%nat ->
  no_repeat (PID <$> SJF.gantt st) ->
  SJF.step ps st = Some st' ->
  no_repeat (PID <$> SJF.gantt st').
Proof.
  intros Hl Hk Hg Hstep.
  destruct (sjf_step_shape ps st Hl Hk)
    as [(p & _ & _ & Hs)|(i & p & r & _ & _ & _ & _ & Hs)].
  { rewrite Hs in Hstep. by injection Hstep as <-. }
  assert (Hopen : no_repeat
                    (PID <$> sjf_gantt_open (SJF.gantt st) p
                                            (SJF.currentTime st))).
  { apply (starts_slice_no_repeat _ (ProcessID p) _ 0 Hg). }
  cbv zeta in Hs. case_decide.
  - destruct Hs as (g2 & Hg2 & Hs). rewrite Hs in Hstep.
    injection Hstep as <-. simpl.
    by rewrite (set_last_stop_pids _ _ _ Hg2).
  - rewrite Hs in Hstep. by injection Hstep as <-.
Qed.

Lemma sjf_reachable_no_repeat ps st :
  SJFSpec.reachable ps st -> no_repeat (PID <$> SJF.gantt st).
Proof.
  induction 1 as [|st st' Hreach IH Hk Hstep].
  - apply no_repeat_nil.
  - apply (sjf_step_no_repeat ps st st'); try done.
    by apply sjf_reachable_lengths.
Qed.

(** X18. The timeline of SJF has no two neighbouring slices of the same
    process: a process that keeps the CPU extends its slice, and a new
    slice is started only when another process takes over. *)
Theorem sjf_timeline_merges_units
        (sort : list Process -> list Process) (fuel : nat)
        (ps : list Process) (out : Output) :
  (SJFSchedule sort fuel ps).2 = Done out ->
  no_repeat (PID <$> outGantt out).
Proof.
  intros Hout.
  destruct (SJFSchedule_done _ _ _ _ Hout) as (st & Hreach & _ & ->).
  by apply (sjf_reachable_no_repeat (sort ps)).
Qed.

(** X18 on the batch with bursts 5 and 2 arriving at 2 and 3. *)
Lemma sjf_timeline_merges_units_witness :
  exists out,
    (SJFSchedule insertionSort 9 batch_preempted).2 = Done out /\
    no_repeat (PID <$> outGantt out).
Proof.
  eexists. split; [vm_compute; reflexivity|].
  apply (sjf_timeline_merges_units insertionSort 9 batch_preempted).
  vm_compute. reflexivity.
Defined.

Lemma prio_run_unit_no_repeat m st t h inserted st' :
  no_repeat (PID <$> Prio.gantt st) ->
  Prio.run_unit m st t h inserted = Prio.Continue st' ->
  no_repeat (PID <$> Prio.gantt st').
Proof.
  intros Hg. unfold Prio.run_unit.
  destruct (GoHeap.Pop h) as [[x h1]|]; [|done]. cbv zeta.
  pose proof (starts_slice_no_repeat (Prio.gantt st) (ProcessID x) t
                (add64 (add64 t (sub64 (BurstDuration x) 1)) 1) Hg) as Hg'.
  case_decide.
  - destruct (Prio.turnAroundTimes st !! _); [|done].
    destruct (Prio.waitingTimes st !! _); [|done].
    by intros [= <-].
  - by intros [= <-].
Qed.

Lemma prio_run_unit_no_break m st t h inserted st' :
  Prio.run_unit m st t h inserted <> Prio.Break st'.
Proof.
  unfold Prio.run_unit.
  destruct (GoHeap.Pop h) as [[x h1]|]; [|done]. cbv zeta.
  case_decide; [|done].
  destruct (Prio.turnAroundTimes st !! _); [|done].
  by destruct (Prio.waitingTimes st !! _).
Qed.

Lemma prio_loop_no_repeat ps m fuel : forall st st',
  no_repeat (PID <$> Prio.gantt st) ->
  Prio.loop fuel ps m st = Done st' ->
  no_repeat (PID <$> Prio.gantt st').
Proof.
  induction fuel as [|fuel IH]; intros st st' Hg; simpl; [done|].
  destruct (Prio.step ps m st) as [st1|st1|] eqn:Hstep; try done.
  - apply IH. unfold Prio.step in Hstep.
    destruct (Prio.push_arrivals _ _ _ _) as [h inserted].
    case_decide.
    + case_decide; [|done]. destruct (ps !! inserted); [|done].
      by eapply prio_run_unit_no_repeat.
    + by eapply prio_run_unit_no_repeat.
  - intros [= <-]. unfold Prio.step in Hstep.
    destruct (Prio.push_arrivals _ _ _ _) as [h inserted].
    case_decide.
    + case_decide.
      * destruct (ps !! inserted); [|done].
        by apply prio_run_unit_no_break in Hstep.
      * by injection Hstep as <-.
    + by apply prio_run_unit_no_break in Hstep.
Qed.

(** X19. The timeline of Priority has no two neighbouring slices of the
    same process either. *)
Theorem priority_timeline_merges_units
        (sort : list Process -> list Process) (fuel : nat)
        (ps : list Process) (out : Output) :
  (SJFPrioritySchedule sort fuel ps).2 = Done out ->
  no_repeat (PID <$> outGantt out).
Proof.
  rewrite SJFPrioritySchedule_result.
  destruct (Prio.init (sort ps)) as [st0|] eqn:Hinit; [|done].
  destruct (Prio.loop _ _ _ st0) as [st| |] eqn:Hloop; try done.
  intros [= <-]. unfold Prio.output.
  destruct (Prio.fill_rows _ _ _ _) as [last sched]. simpl.
  eapply prio_loop_no_repeat; [|exact Hloop].
  unfold Prio.init in Hinit. destruct (sort ps !! 0%nat); [|done].
  simpl in Hinit. injection Hinit as <-. apply no_repeat_nil.
Qed.

(** X19 on the batch of two processes that both arrive at 0. *)
Lemma priority_timeline_merges_units_witness :
  exists out,
    (SJFPrioritySchedule insertionSort 7 batch_two_priorities).2 = Done out /\
    no_repeat (PID <$> outGantt out).
Proof.
  eexists. split; [vm_compute; reflexivity|].
  apply (priority_timeline_merges_units insertionSort 7 batch_two_priorities).
  vm_compute. reflexivity.
Defined.

(** ** [main] *)




(** ** [loadProcesses] *)

Lemma load_field_loaded ParseInt row k z :
  Load.field ParseInt row k = Loaded z <-> parsed ParseInt row k = Some z.
Proof.
  unfold Load.field, parsed, Load.mustStrToInt.
  destruct (row !! k) as [s|]; simpl; [|done].
  destruct (ParseInt s); split; intros; simplify_eq; done.
Qed.

Lemma load_row_loaded ParseInt row p :
  Load.load_row ParseInt row = Loaded p <-> row_process ParseInt row p.
Proof.
  unfold Load.load_row, row_process.
  destruct (Load.field ParseInt row 0) as [id| |] eqn:H0; simpl;
    try (split; [done|intros (H & _); apply load_field_loaded in H; congruence]).
  destruct (Load.field ParseInt row 1) as [burst| |] eqn:H1; simpl;
    try (split; [done|intros (_ & H & _); apply load_field_loaded in H; congruence]).
  destruct (Load.field ParseInt row 2) as [arrival| |] eqn:H2; simpl;
    try (split; [done|intros (_ & _ & H & _); apply load_field_loaded in H;
                      congruence]).
  apply load_field_loaded in H0, H1, H2. rewrite H0, H1, H2.
  case_decide as Hlen.
  - destruct (Load.field ParseInt row 3) as [priority| |] eqn:H3; simpl;
      try (split; [done|intros (_ & _ & _ & H); apply load_field_loaded in H;
                        congruence]).
    apply load_field_loaded in H3. rewrite H3. destruct p. simpl.
    split; [by intros [= <- <- <- <-]|].
    by intros ([= <-] & [= <-] & [= <-] & [= <-]).
  - destruct p. simpl. split; [by intros [= <- <- <- <-]|].
    by intros ([= <-] & [= <-] & [= <-] & <-).
Qed.

Lemma load_rows_loaded ParseInt rows : forall ps,
  Load.load_rows ParseInt rows = Loaded ps <->
  Forall2 (row_process ParseInt) rows ps.
Proof.
  induction rows as [|row rows IH]; intros ps; simpl.
  - split; [intros [= <-]; constructor|by intros ->%Forall2_nil_inv_l].
  - destruct (Load.load_row ParseInt row) as [p| |] eqn:Hrow; simpl.
    + destruct (Load.load_rows ParseInt rows) as [ps'| |] eqn:Hrows; simpl.
      * split.
        -- intros [= <-]. constructor; [by apply load_row_loaded|by apply IH].
        -- intros (q & qs & Hq & Hqs & ->)%Forall2_cons_inv_l.
           apply load_row_loaded in Hq. apply IH in Hqs. congruence.
      * split; [done|].
        intros (q & qs & _ & Hqs & ->)%Forall2_cons_inv_l.
        by apply IH in Hqs.
      * split; [done|].
        intros (q & qs & _ & Hqs & ->)%Forall2_cons_inv_l.
        by apply IH in Hqs.
    + split; [done|]. intros (q & qs & Hq & _ & ->)%Forall2_cons_inv_l.
      apply load_row_loaded in Hq. congruence.
    + split; [done|]. intros (q & qs & Hq & _ & ->)%Forall2_cons_inv_l.
      apply load_row_loaded in Hq. congruence.
Qed.

Lemma load_rows_app ParseInt good rest ps :
  Load.load_rows ParseInt good = Loaded ps ->
  Load.load_rows ParseInt (good ++ rest)
  = Load.and_then (Load.load_rows ParseInt rest) (fun qs => Loaded (ps ++ qs)).
Proof.
  revert ps. induction good as [|row good IH]; intros ps; simpl.
  - intros [= <-]. by destruct (Load.load_rows ParseInt rest).
  - destruct (Load.load_row ParseInt row) as [p| |]; simpl; try done.
    destruct (Load.load_rows ParseInt good) as [ps'| |]; simpl; try done.
    intros [= <-]. rewrite (IH ps') by done.
    by destruct (Load.load_rows ParseInt rest).
Qed.

(** X21. What a successful load returns: one process per row, in the order
    of the rows; the id, the burst and the arrival are the first three
    fields, and the priority is the fourth field only when the row has
    exactly four fields; for any other row, also one of five fields or
    more, the priority is 0. The load succeeds exactly when every row
    stands for a process in this way. *)
Theorem loadProcesses_row_by_row (ParseInt : string -> option Z)
        (rows : list (list string)) (ps : list Process) :
  loadProcesses ParseInt rows = Loaded ps <->
  length ps = length rows /\
  forall i row p, rows !! i = Some row -> ps !! i = Some p ->
                  row_process ParseInt row p.
Proof.
  unfold loadProcesses. rewrite load_rows_loaded. split.
  - intros H. split; [symmetry; by eapply Forall2_length|].
    intros i row p Hrow Hp. by eapply Forall2_lookup_lr.
  - intros [Hlen H]. by apply Forall2_same_length_lookup_2.
Qed.

(** X22. A file whose first row has fewer than three fields, all of them
    integers, makes the load panic with an index out of range, whatever
    the rows after it hold (the records that [ReadAll] returns for one
    file have the same number of fields, so this is every file of one or
    two columns of integers). *)
Theorem loadProcesses_short_row_panics (ParseInt : string -> option Z)
        (row : list string) (rest : list (list string)) :
  (length row < 3)%nat ->
  Forall (fun s => is_Some (ParseInt s)) row ->
  loadProcesses ParseInt (row :: rest) = IndexOutOfRange.
Proof.
  unfold loadProcesses. intros Hlen Hrow. simpl.
  assert (Hfail : Load.load_row ParseInt row = IndexOutOfRange).
  { unfold Load.load_row, Load.field, Load.mustStrToInt.
    destruct row as [|s0 [|s1 [|s2 row]]]; simpl in *; try lia; try done.
    - apply Forall_cons in Hrow as [[z0 ->] _]. done.
    - apply Forall_cons in Hrow as [[z0 ->] Hrow].
      apply Forall_cons in Hrow as [[z1 ->] _]. done. }
  by rewrite Hfail.
Qed.

(** X23. A field that is not an integer ends the program with exit status
    1 when it is the first such field of the first bad row and it is read:
    one of the first three fields, or the fourth field of a row of exactly
    four. The rows after it are not looked at and no process is
    returned. *)
Theorem loadProcesses_malformed_field_exits (ParseInt : string -> option Z)
        (good : list (list string)) (bad : list string)
        (rest : list (list string)) (ps : list Process) (k : nat) (s : string) :
  loadProcesses ParseInt good = Loaded ps ->
  bad !! k = Some s ->
  ParseInt s = None ->
  (k < 3)%nat \/ (k = 3%nat /\ length bad = 4%nat) ->
  (forall j s', (j < k)%nat -> bad !! j = Some s' -> is_Some (ParseInt s')) ->
  loadProcesses ParseInt (good ++ bad :: rest) = ExitStatus1.
Proof.
  unfold loadProcesses. intros Hgood Hk Hs Hread Hbefore.
  rewrite (load_rows_app _ _ _ _ Hgood). simpl.
  assert (Hrow : Load.load_row ParseInt bad = ExitStatus1).
  { assert (Hf : forall j, (j < k)%nat ->
                           exists z, Load.field ParseInt bad j = Loaded z).
    { intros j Hj. destruct (lookup_lt_is_Some_2 bad j) as [s' Hs'].
      { apply lookup_lt_Some in Hk. lia. }
      destruct (Hbefore j s' Hj Hs') as [z Hz]. exists z.
      unfold Load.field, Load.mustStrToInt. by rewrite Hs', Hz. }
    assert (Hfk : Load.field ParseInt bad k = ExitStatus1).
    { unfold Load.field, Load.mustStrToInt. by rewrite Hk, Hs. }
    unfold Load.load_row.
    destruct k as [|[|[|k]]].
    - by rewrite Hfk.
    - destruct (Hf 0%nat) as [z0 ->]; [lia|]. simpl. by rewrite Hfk.
    - destruct (Hf 0%nat) as [z0 ->]; [lia|].
      destruct (Hf 1%nat) as [z1 ->]; [lia|]. simpl. by rewrite Hfk.
    - destruct Hread as [?|[[= ->] Hlen]]; [lia|].
      destruct (Hf 0%nat) as [z0 ->]; [lia|].
      destruct (Hf 1%nat) as [z1 ->]; [lia|].
      destruct (Hf 2%nat) as [z2 ->]; [lia|]. simpl.
      rewrite decide_True by done. by rewrite Hfk. }
  by rewrite Hrow.
Qed.

(** X24. Fields after the third are read only in a row of exactly four
    fields: when no row has four fields, the load of the rows and the load
    of their first three fields end in the same way, with the same
    processes. *)
Theorem loadProcesses_reads_three_fields (ParseInt : string -> option Z)
        (rows : list (list string)) :
  Forall (fun row => length row <> 4%nat) rows ->
  loadProcesses ParseInt rows = loadProcesses ParseInt (take 3 <$> rows).
Proof.
  unfold loadProcesses. induction 1 as [|row rows Hrow _ IH]; csimpl; [done|].
  rewrite <- IH.
  assert (Hsame : Load.load_row ParseInt (take 3 row)
                  = Load.load_row ParseInt row).
  { unfold Load.load_row, Load.field.
    rewrite !lookup_take_lt by lia.
    destruct (decide (length (take 3 row) = 4%nat)) as [Hlen|_].
    { rewrite length_take in Hlen. lia. }
    by destruct (decide (length row = 4%nat)). }
  by rewrite Hsame.
Qed.

(** ** [outputGantt] *)

Lemma gantt_padding_negative (n : nat) :
  (8 - Z.of_nat n) ÷ 2 < 0 <-> (10 <= n)%nat.
Proof.
  split.
  - intros H. destruct (decide (10 <= n)%nat) as [|Hn]; [done|]. exfalso.
    assert (0 <= (8 - Z.of_nat n) ÷ 2); [|lia].
    destruct (decide (n <= 8)%nat).
    + apply Z.quot_pos; lia.
    + replace n with 9%nat by lia. by vm_compute.
  - intros H. 
    assert ((8 - Z.of_nat n) ÷ 2 <= (-2) ÷ 2) by (apply Z.quot_le_mono; lia).
    change ((-2) ÷ 2) with (-1) in *. lia.
Qed.

Lemma gantt_cell_none Sprint s :
  Gantt.cell Sprint s = None <->
  (10 <= String.length (Sprint (PID s)))%nat.
Proof.
  unfold Gantt.cell, Gantt.Repeat_space.
  rewrite <- gantt_padding_negative.
  destruct (Z.ltb_spec ((8 - Z.of_nat (String.length (Sprint (PID s)))) ÷ 2) 0);
    simpl; split; intros; try done; lia.
Qed.

Lemma gantt_cells_none Sprint g :
  Gantt.cells Sprint g = None <->
  Exists (fun s => (10 <= String.length (Sprint (PID s)))%nat) g.
Proof.
  induction g as [|s g IH]; simpl.
  - split; [done|by intros ?%Exists_nil].
  - rewrite Exists_cons, <- IH, <- gantt_cell_none.
    destruct (Gantt.cell Sprint s); simpl; [|by split; [left|]].
    destruct (Gantt.cells Sprint g); simpl.
    + split; [done|by intros [|]].
    + split; [by right|done].
Qed.

(** X25. [outputGantt] panics exactly when the id of some slice prints to
    ten characters or more: the padding of a cell is [(8 - len(pid)) / 2]
    spaces, which is negative from ten characters on (nine characters give
    0 spaces, as the division truncates towards zero), and
    [strings.Repeat] panics on a negative count. *)
Theorem outputGantt_panics_on_long_ids (Sprint : Z -> string)
        (gantt : list TimeSlice) :
  outputGantt Sprint gantt = None <->
  Exists (fun s => (10 <= String.length (Sprint (PID s)))%nat) gantt.
Proof.
  rewrite <- gantt_cells_none. unfold outputGantt.
  by destruct (Gantt.cells Sprint gantt).
Qed.

Lemma gantt_cells_pids Sprint g : forall g',
  PID <$> g = PID <$> g' -> Gantt.cells Sprint g = Gantt.cells Sprint g'.
Proof.
  induction g as [|s g IH]; intros [|s' g'] H; simplify_eq/=; [done|].
  unfold Gantt.cell. rewrite H. by rewrite (IH g').
Qed.

Lemma gantt_marks_heads Sprint g : forall g',
  slice_head <$> g = slice_head <$> g' ->
  Stop <$> last g = Stop <$> last g' ->
  Gantt.marks Sprint g = Gantt.marks Sprint g'.
Proof.
  induction g as [|s g IH]; intros [|s' g'] H Hlast; try done.
  injection H as Hpid Hstart Htail.
  destruct g as [|s2 g], g' as [|s2' g']; try done.
  - injection Hlast as Hstop. cbn [Gantt.marks]. by rewrite Hstart, Hstop.
  - change (Sprint (Start s) +:+ Gantt.tab +:+ Gantt.marks Sprint (s2 :: g)
            = Sprint (Start s') +:+ Gantt.tab
              +:+ Gantt.marks Sprint (s2' :: g')).
    by rewrite Hstart, (IH (s2' :: g')).
Qed.

(** X26. The chart shows the [Stop] of the last slice only: two timelines
    with the same ids and the same starts, slice by slice, and the same
    stop in their last slice are printed as the same text, whatever the
    [Stop] of any other slice is. *)
Theorem outputGantt_shows_last_stop_only (Sprint : Z -> string)
        (g g' : list TimeSlice) :
  slice_head <$> g = slice_head <$> g' ->
  Stop <$> last g = Stop <$> last g' ->
  outputGantt Sprint g = outputGantt Sprint g'.
Proof.
  intros Hheads Hlast. unfold outputGantt.
  rewrite (gantt_cells_pids Sprint g g').
  - by rewrite (gantt_marks_heads Sprint g g').
  - apply (f_equal (fmap fst)) in Hheads.
    by rewrite <- !list_fmap_compose in Hheads.
Qed.

(** ** Examples *)

Lemma heap_ordered_singleton a : heap_ordered [a].
Proof. intros [|[|j]] p q Hj Hp Hq; [lia|done|done]. Qed.

Lemma heap_ordered_pair a b :
  Priority a <= Priority b -> heap_ordered [a; b].
Proof.
  intros Hab [|[|[|j]]] p q Hj Hp Hq; try done; [lia|].
  by injection Hp as <-; injection Hq as <-.
Qed.

(** X13 on a heap of one process, with a process of lower [Priority]. *)
Lemma heap_Push_keeps_order_witness :
  heap_ordered (GoHeap.Push [proc 1 4 0 2] (proc 2 2 0 1)) /\
  GoHeap.Push [proc 1 4 0 2] (proc 2 2 0 1)
  ≡ₚ [proc 2 2 0 1; proc 1 4 0 2].
Proof.
  apply (heap_Push_keeps_order [proc 1 4 0 2] (proc 2 2 0 1)).
  apply heap_ordered_singleton.
Defined.

(** X14 on a heap of two processes. *)
Lemma heap_Pop_returns_lowest_priority_witness :
  match GoHeap.Pop [proc 2 2 0 1; proc 1 4 0 2] with
  | Some (x, h1) =>
      [proc 2 2 0 1; proc 1 4 0 2] !! 0%nat = Some x /\
      Forall (fun q => Priority x <= Priority q) h1 /\
      x :: h1 ≡ₚ [proc 2 2 0 1; proc 1 4 0 2] /\
      heap_ordered h1
  | None => [proc 2 2 0 1; proc 1 4 0 2] = []
  end.
Proof.
  apply (heap_Pop_returns_lowest_priority [proc 2 2 0 1; proc 1 4 0 2]).
  apply heap_ordered_pair. simpl. lia.
Defined.

(** X15 on the first iteration of the batch of two processes that both
    arrive at 0. *)
Lemma priority_runs_lowest_priority_witness :
  exists st',
    Prio.step batch_two_priorities (Prio.mapIndex 0 batch_two_priorities ∅)
      (Prio.mkState 0 0 [] [] [0; 0] [0; 0] 0) = Prio.Continue st' /\
    heap_ordered (Prio.minHeap st') /\
    Prio.currentTime st' = 1.
Proof.
  eexists. split; [vm_compute; reflexivity|].
  edestruct (fun st' =>
               priority_runs_lowest_priority batch_two_priorities
                 (Prio.mapIndex 0 batch_two_priorities ∅)
                 (Prio.mkState 0 0 [] [] [0; 0] [0; 0] 0) st'
                 heap_ordered_nil)
    as (Hheap & Hclock & _); [vm_compute; reflexivity|].
  split; [exact Hheap|exact Hclock].
Defined.

(** X22 on a file of two columns. *)
Lemma loadProcesses_short_row_panics_witness :
  loadProcesses parseDecimal [["1"; "5"]; ["2"; "3"]] = IndexOutOfRange.
Proof.
  apply (loadProcesses_short_row_panics parseDecimal ["1"; "5"]
           [["2"; "3"]]).
  - simpl. lia.
  - repeat constructor; eexists; vm_compute; reflexivity.
Defined.

(** X23 on a file whose second line has a burst that is not a number. *)
Lemma loadProcesses_malformed_field_exits_witness :
  loadProcesses parseDecimal
    [["1"; "5"; "0"]; ["2"; "x"; "0"]; ["3"; "y"; "1"]]
  = ExitStatus1.
Proof.
  apply (loadProcesses_malformed_field_exits parseDecimal [["1"; "5"; "0"]]
           ["2"; "x"; "0"] [["3"; "y"; "1"]] [proc 1 5 0 0] 1 "x").
  - vm_compute. reflexivity.
  - reflexivity.
  - vm_compute. reflexivity.
  - left. lia.
  - intros [|j] s' Hj Hs'; [|lia]. injection Hs' as <-.
    eexists. vm_compute. reflexivity.
Defined.

(** X24 on a line of five fields: the priority 9 is not read. *)
Lemma loadProcesses_reads_three_fields_witness :
  loadProcesses parseDecimal [["1"; "5"; "0"; "9"; "7"]]
  = Loaded [proc 1 5 0 0].
Proof.
  etransitivity.
  - apply (loadProcesses_reads_three_fields parseDecimal
             [["1"; "5"; "0"; "9"; "7"]]).
    repeat constructor. simpl. lia.
  - vm_compute. reflexivity.
Defined.

(** X26 on two timelines that differ in the stop of their first slice. *)
Lemma outputGantt_shows_last_stop_only_witness :
  outputGantt sprintDecimal [mkTimeSlice 1 2 0; mkTimeSlice 2 3 5]
  = outputGantt sprintDecimal [mkTimeSlice 1 2 3; mkTimeSlice 2 3 5].
Proof.
  apply (outputGantt_shows_last_stop_only sprintDecimal
           [mkTimeSlice 1 2 0; mkTimeSlice 2 3 5]
           [mkTimeSlice 1 2 3; mkTimeSlice 2 3 5]).
  - reflexivity.
  - reflexivity.
Defined.
